(** * GeminiResponseHandler: a shallow embedding of
      src/agents/gemini/GeminiResponseHandler.ts

    The handler is an object with four mutable fields and four asynchronous
    methods.  JavaScript runs one synchronous segment at a time: a method
    runs until its next [await], and other callbacks (here the listener for
    "ai_indicator.stop") run only while it is suspended.  The embedding keeps
    that granularity: the state of the handler together with the point at
    which [run] is suspended is a [relay], one [tick] executes one
    synchronous segment, and an execution is a list of ticks.

    Everything the handler asks of its collaborators is appended to a
    [trace].  What the collaborators answer is fixed by a [world].

    Conventions.  Line numbers are those of the source file.  [run] is
    called once per handler.  [chatClient.off] and the [onDispose] callback
    return; a rejection of a [partialUpdateMessage] that is not awaited
    (lines 49, 109, 121) is not observed by the handler.  The clock,
    [Date.now()], is an integer number of milliseconds.  Console output is
    not recorded.  A function call carries the [query] of its arguments
    (line 73). *)

From Stdlib Require Import List String Ascii ZArith Bool Arith Lia DecimalString.
Import ListNotations.
Local Open Scope string_scope.

(** ** Characters that a string literal cannot spell *)

Definition dquote : string := String "034"%char EmptyString.
Definition newline : string := String "010"%char EmptyString.
Definition backslash : string := String "092"%char EmptyString.

(** ** JSON.stringify on objects whose values are strings

    The handler only serialises flat objects of strings (lines 86, 187,
    213, 228).  Keys are written in insertion order, without blanks; a
    string is quoted, with the two-character escapes of ECMA-262
    (QuoteJSONString) and [\u00xx] for the remaining control characters. *)

Definition hex_digit (n : nat) : string :=
  String.substring n 1 "0123456789abcdef".

Definition json_escape_char (c : ascii) : string :=
  let n := nat_of_ascii c in
  if Nat.eqb n 34 then backslash ++ dquote
  else if Nat.eqb n 92 then backslash ++ backslash
  else if Nat.eqb n 8 then backslash ++ "b"
  else if Nat.eqb n 12 then backslash ++ "f"
  else if Nat.eqb n 10 then backslash ++ "n"
  else if Nat.eqb n 13 then backslash ++ "r"
  else if Nat.eqb n 9 then backslash ++ "t"
  else if Nat.ltb n 32 then
    backslash ++ "u00" ++ hex_digit (n / 16) ++ hex_digit (n mod 16)
  else String c EmptyString.

Fixpoint json_escape (s : string) : string :=
  match s with
  | EmptyString => EmptyString
  | String c rest => json_escape_char c ++ json_escape rest
  end.

Definition json_quote (s : string) : string :=
  dquote ++ json_escape s ++ dquote.

Definition JSON_stringify (obj : list (string * string)) : string :=
  "{" ++ String.concat ","
           (map (fun kv => json_quote (fst kv) ++ ":" ++ json_quote (snd kv)) obj)
      ++ "}".

(** ** Array.prototype.join

    As ECMA-262 states it: an accumulator that starts empty, the separator
    before every element but the first. *)

Fixpoint join_from (sep R : string) (first : bool) (l : list string) : string :=
  match l with
  | [] => R
  | x :: rest => join_from sep ((if first then R else R ++ sep) ++ x) false rest
  end.

Definition join (sep : string) (l : list string) : string :=
  join_from sep "" true l.

(** ** Data *)

(** A thrown value, as [handleError] reads it: [error.message] (which a
    thrown value need not have) and [error.toString()]. *)
Record Error := { error_message : option string; error_toString : string }.

(** How an awaited promise settles. *)
Inductive settled (A : Type) : Type :=
| Fulfilled (a : A)
| Rejected (e : Error).
Arguments Fulfilled {A} a.
Arguments Rejected {A} e.

(** [this.message]: the fields the handler reads. *)
Record MessageResponse := { cid : string; id : string }.

(** The event delivered to the "ai_indicator.stop" listener. *)
Record Event := { message_id : option string }.

Inductive ai_state :=
| AI_STATE_GENERATING
| AI_STATE_EXTERNAL_SOURCES
| AI_STATE_ERROR.

Inductive indicator :=
| ai_indicator_update (state : ai_state)
| ai_indicator_clear.

(** One fragment of a stream: what [chunk.text()] does, and what [Date.now()]
    returns if the loop body reads the clock for this fragment. *)
Record Chunk := { text : settled string; now : Z }.

(** A finite stream: its fragments, then either the end of the iteration
    or a rejection of the iterator. *)
Record Stream := { chunks : list Chunk; failure : option Error }.

Record FunctionCall := { name : string; query : string }.

Record FunctionResult := { result_name : string; result_response : string }.

(** What a call of [performWebSearch] meets on its way (lines 183-233): no
    API key in the environment; a [fetch] (or the reading of its body) that
    throws, with the message of the exception when it is an [Error]; a
    response that is not ok, with its status and body text; or a response
    whose JSON body, written back by [JSON.stringify], is [data]. *)
Inductive search_run :=
| no_api_key
| fetch_throws (thrown_message : option string)
| fetch_not_ok (status : Z) (errorText : string)
| fetch_ok (data : string).

(** What [chat.sendMessageStream] resolves to: [result.stream] and
    [result.response] followed by [response.functionCalls()], which is a
    list or [undefined]. *)
Record StreamResult := {
  stream : Stream;
  response : settled (option (list FunctionCall))
}.

(** The calls the handler makes, in the order it makes them. A partial
    update made in a stream loop carries the clock reading [now] that let it
    through (lines 47-52); the others are made without reading the clock. *)
Inductive effect :=
| on_stop
| off_stop
| onDispose
| sendEvent (type : indicator) (event_cid event_message_id : string)
| partialUpdateMessage (at_time : option Z) (target : string)
                       (set : list (string * string))
| sendMessageStream (prompt : string)
| performWebSearch (search_query : string).

(** The answers of the collaborators to the awaited calls of [run] and
    [handleError]. [search i] answers the search made for the function call
    at position [i] of the list: the promise of [performWebSearch] rejects,
    or its body runs and meets [search_run]. *)
Record world := {
  generating_ack : settled unit;
  first_result : settled StreamResult;
  external_ack : settled unit;
  search : nat -> settled search_run;
  followup_result : settled Stream;
  clear_ack : settled unit;
  error_ack : settled unit;
  error_update_ack : settled unit
}.

(** Where [run] is suspended, with the local variables that are live there. *)
Inductive run_pc :=
| NotStarted
| AwaitGenerating (fullPrompt : string)
| AwaitStream
| InStream (rest : list Chunk) (fail : option Error)
           (resp : settled (option (list FunctionCall)))
| AwaitResponse (resp : settled (option (list FunctionCall)))
| AwaitExternalSources (functionCalls : list FunctionCall)
| AwaitSearch (functionCall : FunctionCall) (index : nat)
              (rest : list FunctionCall) (functionResults : list FunctionResult)
| AwaitFollowUp
| InFollowUp (rest : list Chunk) (fail : option Error)
| AwaitClear
| AwaitErrorEvent (error : Error)
| AwaitErrorUpdate
| Returned (isCompleted : bool).

(** The handler: its fields (lines 5-8 and 16), where [run] stands, how many
    invocations of [handleStopGenerating] are suspended at their [await],
    and the calls made so far. *)
Record relay := {
  message : MessageResponse;
  message_text : string;
  chunk_counter : Z;
  is_done : bool;
  last_update_time : Z;
  run_at : run_pc;
  stops_pending : nat;
  trace : list effect
}.

Definition emit (e : effect) (m : relay) : relay :=
  {| message := message m; message_text := message_text m;
     chunk_counter := chunk_counter m; is_done := is_done m;
     last_update_time := last_update_time m; run_at := run_at m;
     stops_pending := stops_pending m; trace := trace m ++ [e] |}.

Definition goto (p : run_pc) (m : relay) : relay :=
  {| message := message m; message_text := message_text m;
     chunk_counter := chunk_counter m; is_done := is_done m;
     last_update_time := last_update_time m; run_at := p;
     stops_pending := stops_pending m; trace := trace m |}.

Definition set_is_done (b : bool) (m : relay) : relay :=
  {| message := message m; message_text := message_text m;
     chunk_counter := chunk_counter m; is_done := b;
     last_update_time := last_update_time m; run_at := run_at m;
     stops_pending := stops_pending m; trace := trace m |}.

Definition set_message_text (s : string) (m : relay) : relay :=
  {| message := message m; message_text := s;
     chunk_counter := chunk_counter m; is_done := is_done m;
     last_update_time := last_update_time m; run_at := run_at m;
     stops_pending := stops_pending m; trace := trace m |}.

Definition set_chunk_counter (n : Z) (m : relay) : relay :=
  {| message := message m; message_text := message_text m;
     chunk_counter := n; is_done := is_done m;
     last_update_time := last_update_time m; run_at := run_at m;
     stops_pending := stops_pending m; trace := trace m |}.

Definition set_last_update_time (t : Z) (m : relay) : relay :=
  {| message := message m; message_text := message_text m;
     chunk_counter := chunk_counter m; is_done := is_done m;
     last_update_time := t; run_at := run_at m;
     stops_pending := stops_pending m; trace := trace m |}.

Definition set_stops_pending (n : nat) (m : relay) : relay :=
  {| message := message m; message_text := message_text m;
     chunk_counter := chunk_counter m; is_done := is_done m;
     last_update_time := last_update_time m; run_at := run_at m;
     stops_pending := n; trace := trace m |}.

(** The constructor (lines 10-20). *)
Definition construct (msg : MessageResponse) : relay :=
  {| message := msg; message_text := ""; chunk_counter := 0%Z;
     is_done := false; last_update_time := 0%Z; run_at := NotStarted;
     stops_pending := 0; trace := [on_stop] |}.

(** The three events the handler sends. *)
Definition update_event (s : ai_state) (m : relay) : effect :=
  sendEvent (ai_indicator_update s) (cid (message m)) (id (message m)).

Definition clear_event (m : relay) : effect :=
  sendEvent ai_indicator_clear (cid (message m)) (id (message m)).

(** ** The methods *)

(** [dispose] (lines 140-147). *)
Definition dispose (m : relay) : relay :=
  if is_done m then m
  else emit onDispose (emit off_stop (set_is_done true m)).

(** The [finally] block (lines 135-137), after which [run] has returned. *)
Definition finally (isCompleted : bool) (m : relay) : relay :=
  goto (Returned isCompleted) (dispose m).

(** The [catch] block (lines 132-134) entering [handleError] (lines
    164-173): an early return falls through to [finally]. *)
Definition handleError (error : Error) (m : relay) : relay :=
  if is_done m then finally false m
  else goto (AwaitErrorEvent error) (emit (update_event AI_STATE_ERROR m) m).

(** [handleError] after its [sendEvent] (lines 174-179). *)
Definition error_text (error : Error) : string :=
  match error_message error with
  | Some s => s
  | None => "Error generating the message"
  end.

Definition handleError_update (error : Error) (m : relay) : relay :=
  goto AwaitErrorUpdate
    (emit (partialUpdateMessage None (id (message m))
             [("text", error_text error); ("message", error_toString error)]) m).

(** [handleError] after its [partialUpdateMessage] (line 180), then the
    [finally] block of [run]. *)
Definition handleError_dispose (m : relay) : relay :=
  finally false (dispose m).

(** The body of both stream loops for a fragment whose text is
    [chunkText], read when the clock says [t] (lines 45-55 and 105-115). *)
Definition consume (chunkText : string) (t : Z) (m : relay) : relay :=
  if String.eqb chunkText "" then m
  else
    let m1 := set_message_text (message_text m ++ chunkText) m in
    let m2 :=
      if (t - last_update_time m1 >? 1000)%Z then
        set_last_update_time t
          (emit (partialUpdateMessage (Some t) (id (message m1))
                   [("text", message_text m1)]) m1)
      else m1 in
    set_chunk_counter (chunk_counter m2 + 1)%Z m2.

(** Lines 120-129: the final update and the clear event. *)
Definition final_flush (m : relay) : relay :=
  goto AwaitClear
    (emit (clear_event m)
       (emit (partialUpdateMessage None (id (message m))
                [("text", message_text m)]) m)).

(** The body of [performWebSearch] (lines 183-233): every path returns a
    string. *)
Definition performWebSearch_body (met : search_run) : string :=
  match met with
  | no_api_key =>
      JSON_stringify
        [("error", "Web search is not available. API key not configured.")]
  | fetch_throws thrown =>
      JSON_stringify
        [("error", "An exception occurred during the search.");
         ("message", match thrown with
                     | Some m => m
                     | None => "Unknown error"
                     end)]
  | fetch_not_ok status errorText =>
      JSON_stringify
        [("error", "Search failed with status: "
                   ++ NilZero.string_of_int (Z.to_int status));
         ("details", errorText)]
  | fetch_ok data => data
  end.

(** Line 86. *)
Definition failed_to_call_tool : string :=
  JSON_stringify [("error", "failed to call tool")].

(** Lines 94-96. *)
Definition functionResultsText (functionResults : list FunctionResult) : string :=
  join (newline ++ newline)
    (map (fun result =>
            "Function: " ++ result_name result ++ newline
            ++ "Result: " ++ result_response result)
       functionResults).

(** Lines 93-97 and, when there is no result, on to line 120. *)
Definition after_tools (functionResults : list FunctionResult) (m : relay) : relay :=
  match functionResults with
  | [] => final_flush m
  | _ :: _ =>
      goto AwaitFollowUp
        (emit (sendMessageStream (functionResultsText functionResults)) m)
  end.

(** The loop of lines 70-90, from the call at position [index] up to its
    next [await]. *)
Fixpoint tool_loop (index : nat) (functionCalls : list FunctionCall)
    (functionResults : list FunctionResult) (m : relay) : relay :=
  match functionCalls with
  | [] => after_tools functionResults m
  | functionCall :: rest =>
      if String.eqb (name functionCall) "web_search" then
        goto (AwaitSearch functionCall index rest functionResults)
          (emit (performWebSearch (query functionCall)) m)
      else tool_loop (S index) rest functionResults m
  end.

(** [handleStopGenerating] up to its [await] (lines 149-160). *)
Definition handleStopGenerating (event : Event) (m : relay) : relay :=
  let other :=
    match message_id event with
    | Some i => negb (String.eqb i (id (message m)))
    | None => true
    end in
  if is_done m || other then m
  else set_stops_pending (S (stops_pending m)) (emit (clear_event m) m).

(** [handleStopGenerating] after its [await] (line 161): a rejected
    [sendEvent] ends the invocation without [dispose]. *)
Definition handleStopGenerating_resume (ack : settled unit) (m : relay) : relay :=
  match stops_pending m with
  | O => m
  | S n =>
      match ack with
      | Fulfilled _ => dispose (set_stops_pending n m)
      | Rejected _ => set_stops_pending n m
      end
  end.

(** ** Executions *)

Inductive tick :=
| Run
| Stop (event : Event)
| StopSent (ack : settled unit).

Section Execution.

Variable w : world.
Variables userMessage instructions : string.

(** Line 28. *)
Definition fullPrompt : string :=
  instructions ++ newline ++ newline ++ "User message: " ++ userMessage.

(** One segment of [run]: from where it stands to its next [await]. At
    [NotStarted] the segment is the call [run(userMessage, instructions)]
    itself. *)
Definition resume (m : relay) : relay :=
  match run_at m with
  | NotStarted =>
      goto (AwaitGenerating fullPrompt)
        (emit (update_event AI_STATE_GENERATING m) m)
  | AwaitGenerating prompt =>
      match generating_ack w with
      | Rejected e => handleError e m
      | Fulfilled _ => goto AwaitStream (emit (sendMessageStream prompt) m)
      end
  | AwaitStream =>
      match first_result w with
      | Rejected e => handleError e m
      | Fulfilled result =>
          goto (InStream (chunks (stream result)) (failure (stream result))
                  (response result)) m
      end
  | InStream [] (Some e) _ => handleError e m
  | InStream [] None resp => goto (AwaitResponse resp) m
  | InStream (chunk :: rest) fail resp =>
      if is_done m then goto (AwaitResponse resp) m
      else
        match text chunk with
        | Rejected e => handleError e m
        | Fulfilled chunkText =>
            goto (InStream rest fail resp) (consume chunkText (now chunk) m)
        end
  | AwaitResponse (Rejected e) => handleError e m
  | AwaitResponse (Fulfilled (Some (functionCall :: rest))) =>
      goto (AwaitExternalSources (functionCall :: rest))
        (emit (update_event AI_STATE_EXTERNAL_SOURCES m) m)
  | AwaitResponse (Fulfilled _) => final_flush m
  | AwaitExternalSources functionCalls =>
      match external_ack w with
      | Rejected e => handleError e m
      | Fulfilled _ => tool_loop 0 functionCalls [] m
      end
  | AwaitSearch functionCall index rest functionResults =>
      let response :=
        match search w index with
        | Fulfilled met => performWebSearch_body met
        | Rejected _ => failed_to_call_tool
        end in
      tool_loop (S index) rest
        (functionResults ++
           [{| result_name := name functionCall; result_response := response |}])
        m
  | AwaitFollowUp =>
      match followup_result w with
      | Rejected e => handleError e m
      | Fulfilled followUp =>
          goto (InFollowUp (chunks followUp) (failure followUp)) m
      end
  | InFollowUp [] (Some e) => handleError e m
  | InFollowUp [] None => final_flush m
  | InFollowUp (chunk :: rest) fail =>
      if is_done m then final_flush m
      else
        match text chunk with
        | Rejected e => handleError e m
        | Fulfilled chunkText =>
            goto (InFollowUp rest fail) (consume chunkText (now chunk) m)
        end
  | AwaitClear =>
      match clear_ack w with
      | Rejected e => handleError e m
      | Fulfilled _ => finally true m
      end
  | AwaitErrorEvent error =>
      match error_ack w with
      | Rejected _ => finally false m
      | Fulfilled _ => handleError_update error m
      end
  | AwaitErrorUpdate =>
      match error_update_ack w with
      | Rejected _ => finally false m
      | Fulfilled _ => handleError_dispose m
      end
  | Returned _ => m
  end.

Definition step (t : tick) (m : relay) : relay :=
  match t with
  | Run => resume m
  | Stop event => handleStopGenerating event m
  | StopSent ack => handleStopGenerating_resume ack m
  end.

Definition exec (ticks : list tick) (m : relay) : relay :=
  fold_left (fun m t => step t m) ticks m.

End Execution.

(** ** A sample conversation

    The scenarios of the specification: a message "m1" of channel
    "messaging:c1", a stream of two fragments, and a world in which every
    call succeeds unless a field is overridden. *)

Module Sample.

Definition msg : MessageResponse := {| cid := "messaging:c1"; id := "m1" |}.

Definition ok : settled unit := Fulfilled tt.

Definition boom : Error :=
  {| error_message := Some "boom"; error_toString := "Error: boom" |}.

Definition sunny : Stream :=
  {| chunks := [ {| text := Fulfilled "Sun"; now := 5000 |};
                 {| text := Fulfilled "ny today"; now := 5100 |} ];
     failure := None |}.

Definition silent : Stream := {| chunks := []; failure := None |}.

Definition answer_bar : string :=
  "{" ++ dquote ++ "answer" ++ dquote ++ ":" ++ dquote ++ "bar" ++ dquote ++ "}".

Definition world_of (s : Stream) (calls : option (list FunctionCall))
    (found : settled search_run) (followUp : Stream) : world :=
  {| generating_ack := ok;
     first_result := Fulfilled {| stream := s; response := Fulfilled calls |};
     external_ack := ok;
     search := fun _ => found;
     followup_result := Fulfilled followUp;
     clear_ack := ok;
     error_ack := ok;
     error_update_ack := ok |}.

(** No tool call. *)
Definition plain : world := world_of sunny None (Fulfilled no_api_key) silent.

(** One [web_search] call that the search tool answers. *)
Definition searching : world :=
  world_of silent (Some [ {| name := "web_search"; query := "foo" |} ])
    (Fulfilled (fetch_ok answer_bar)) sunny.

(** One [web_search] call whose search throws. *)
Definition failing_search : world :=
  world_of silent (Some [ {| name := "web_search"; query := "foo" |} ])
    (Rejected boom) sunny.

(** A tool call that is not a search. *)
Definition other_tool : world :=
  world_of sunny (Some [ {| name := "get_weather"; query := "" |} ])
    (Fulfilled no_api_key) silent.

(** The stream breaks after its fragments. *)
Definition broken : world :=
  world_of {| chunks := chunks sunny; failure := Some boom |} None
    (Fulfilled no_api_key) silent.

Definition stop_m1 : tick := Stop {| message_id := Some "m1" |}.

End Sample.

(** ** Observations on a trace *)

Definition count (p : effect -> bool) (tr : list effect) : nat :=
  List.length (filter p tr).
Arguments count : simpl never.

Definition is_onDispose (e : effect) : bool :=
  match e with onDispose => true | _ => false end.

Definition is_off_stop (e : effect) : bool :=
  match e with off_stop => true | _ => false end.

Definition is_external_sources (e : effect) : bool :=
  match e with
  | sendEvent (ai_indicator_update AI_STATE_EXTERNAL_SOURCES) _ _ => true
  | _ => false
  end.

Definition is_error_signal (e : effect) : bool :=
  match e with
  | sendEvent (ai_indicator_update AI_STATE_ERROR) _ _ => true
  | _ => false
  end.

Definition is_search (e : effect) : bool :=
  match e with performWebSearch _ => true | _ => false end.

(** The prompts sent to the model session. *)
Definition prompt_of (e : effect) : list string :=
  match e with sendMessageStream p => [p] | _ => [] end.

Definition prompts (tr : list effect) : list string := flat_map prompt_of tr.

(** The calls made after the first [onDispose], that is, after [dispose]
    has set [is_done]. *)
Fixpoint after_dispose (tr : list effect) : list effect :=
  match tr with
  | [] => []
  | onDispose :: rest => rest
  | _ :: rest => after_dispose rest
  end.

(** The clock readings of the updates sent from the stream loops. *)
Definition update_time (e : effect) : list Z :=
  match e with
  | partialUpdateMessage (Some t) _ _ => [t]
  | _ => []
  end.

Definition update_times (tr : list effect) : list Z := flat_map update_time tr.

(** Each reading is more than 1000 ms after the one before it, the first
    one after [last]. *)
Fixpoint throttled (last : Z) (times : list Z) : Prop :=
  match times with
  | [] => True
  | t :: rest => (t - last > 1000)%Z /\ throttled t rest
  end.

Definition latest (last : Z) (times : list Z) : Z := List.last times last.

(** The texts of the final updates (line 121): sent without reading the
    clock, setting the text field only. *)
Definition final_text (e : effect) : list string :=
  match e with
  | partialUpdateMessage None _ [(field, value)] =>
      if String.eqb field "text" then [value] else []
  | _ => []
  end.

Definition final_flushes (tr : list effect) : list string := flat_map final_text tr.

(** ** How many segments [run] still has to execute *)

Definition runs (ticks : list tick) : nat :=
  List.length (filter (fun t => match t with Run => true | _ => false end) ticks).

Definition calls_of (resp : settled (option (list FunctionCall))) : nat :=
  match resp with
  | Fulfilled (Some calls) => List.length calls
  | _ => 0
  end.

Definition followup_length (w : world) : nat :=
  match followup_result w with
  | Fulfilled s => List.length (chunks s)
  | Rejected _ => 0
  end.

Definition first_length (w : world) : nat :=
  match first_result w with
  | Fulfilled r => List.length (chunks (stream r)) + calls_of (response r)
  | Rejected _ => 0
  end.

Definition segments_left (w : world) (p : run_pc) : nat :=
  match p with
  | Returned _ => 0
  | AwaitErrorUpdate => 1
  | AwaitErrorEvent _ => 2
  | AwaitClear => 3
  | InFollowUp rest _ => 4 + List.length rest
  | AwaitFollowUp => 5 + followup_length w
  | AwaitSearch _ _ rest _ => 6 + followup_length w + List.length rest
  | AwaitExternalSources calls => 7 + followup_length w + List.length calls
  | AwaitResponse resp => 8 + followup_length w + calls_of resp
  | InStream rest _ resp => 9 + followup_length w + calls_of resp + List.length rest
  | AwaitStream => 10 + followup_length w + first_length w
  | AwaitGenerating _ => 11 + followup_length w + first_length w
  | NotStarted => 12 + followup_length w + first_length w
  end.

Definition run_bound (w : world) : nat := segments_left w NotStarted.

(** ** Worlds *)

Definition fulfilled {A : Type} (s : settled A) : Prop :=
  match s with Fulfilled _ => True | Rejected _ => False end.

(** A stream none of whose fragments throws and whose iteration ends. *)
Fixpoint sound_chunks (rest : list Chunk) : Prop :=
  match rest with
  | [] => True
  | c :: rest' => fulfilled (text c) /\ sound_chunks rest'
  end.

Definition sound_stream (rest : list Chunk) (fail : option Error) : Prop :=
  sound_chunks rest /\ match fail with None => True | Some _ => False end.

(** Every call of [run] other than a search succeeds. *)
Definition calm (w : world) : Prop :=
  fulfilled (generating_ack w)
  /\ match first_result w with
     | Fulfilled r =>
         sound_stream (chunks (stream r)) (failure (stream r))
         /\ fulfilled (response r)
     | Rejected _ => False
     end
  /\ fulfilled (external_ack w)
  /\ match followup_result w with
     | Fulfilled s => sound_stream (chunks s) (failure s)
     | Rejected _ => False
     end
  /\ fulfilled (clear_ack w).

(** The structured response holds no tool call: an empty list or none. *)
Definition no_calls (resp : settled (option (list FunctionCall))) : Prop :=
  match resp with
  | Fulfilled None | Fulfilled (Some []) => True
  | _ => False
  end.

Definition no_tool_calls (w : world) : Prop :=
  match first_result w with
  | Fulfilled r => no_calls (response r)
  | Rejected _ => False
  end.

(** An error is raised inside the [try] block of [run]: the awaited call
    rejects, the stream iterator rejects, or [chunk.text()] throws. *)
Inductive raises (w : world) (m : relay) (e : Error) : Prop :=
| raises_generating p :
    run_at m = AwaitGenerating p -> generating_ack w = Rejected e -> raises w m e
| raises_stream :
    run_at m = AwaitStream -> first_result w = Rejected e -> raises w m e
| raises_iterator resp :
    run_at m = InStream [] (Some e) resp -> raises w m e
| raises_text c rest fail resp :
    run_at m = InStream (c :: rest) fail resp -> is_done m = false ->
    text c = Rejected e -> raises w m e
| raises_response :
    run_at m = AwaitResponse (Rejected e) -> raises w m e
| raises_external calls :
    run_at m = AwaitExternalSources calls -> external_ack w = Rejected e ->
    raises w m e
| raises_followup :
    run_at m = AwaitFollowUp -> followup_result w = Rejected e -> raises w m e
| raises_followup_iterator :
    run_at m = InFollowUp [] (Some e) -> raises w m e
| raises_followup_text c rest fail :
    run_at m = InFollowUp (c :: rest) fail -> is_done m = false ->
    text c = Rejected e -> raises w m e
| raises_clear :
    run_at m = AwaitClear -> clear_ack w = Rejected e -> raises w m e.

(** ** The follow-up prompt as the specification words it

    Each (name, response) pair is serialised as "Function: <name>", a line
    break, "Result: <response>"; the pairs are separated by two line
    breaks. *)

Definition spec_pair_text (r : FunctionResult) : string :=
  "Function: " ++ result_name r ++ newline ++ "Result: " ++ result_response r.

Fixpoint spec_followup_text (results : list FunctionResult) : string :=
  match results with
  | [] => ""
  | [r] => spec_pair_text r
  | r :: rest => spec_pair_text r ++ newline ++ newline ++ spec_followup_text rest
  end.

(** ** Invariants of an execution *)

(** [dispose] has run its body at most once, and exactly once when
    [is_done] is set; [run] returns only after [dispose]. *)
Definition disposed_once (m : relay) : Prop :=
  count is_onDispose (trace m) = Nat.b2n (is_done m)
  /\ count is_off_stop (trace m) = Nat.b2n (is_done m)
  /\ (forall c, run_at m = Returned c -> is_done m = true).

(** Without tool calls [run] never stands in the tool branch, has sent no
    EXTERNAL_SOURCES signal and no search, and no prompt but the first. *)
Definition quiet_pc (p : run_pc) : Prop :=
  match p with
  | InStream _ _ resp | AwaitResponse resp => no_calls resp
  | AwaitExternalSources _ | AwaitSearch _ _ _ _ | AwaitFollowUp
  | InFollowUp _ _ => False
  | _ => True
  end.

Definition first_prompt_only (um ins : string) (m : relay) : Prop :=
  match run_at m with
  | NotStarted => prompts (trace m) = []
  | AwaitGenerating p => p = fullPrompt um ins /\ prompts (trace m) = []
  | _ => prompts (trace m) = [] \/ prompts (trace m) = [fullPrompt um ins]
  end.

Definition quiet (um ins : string) (m : relay) : Prop :=
  quiet_pc (run_at m)
  /\ count is_external_sources (trace m) = 0
  /\ count is_search (trace m) = 0
  /\ first_prompt_only um ins m.

(** The updates sent from the loops are throttled, and [last_update_time]
    is the clock reading of the latest one. *)
Definition throttle_kept (m : relay) : Prop :=
  throttled 0 (update_times (trace m))
  /\ latest 0 (update_times (trace m)) = last_update_time m.

(** The final update, immediately followed by the CLEAR signal of [run],
    carrying the text accumulated in the handler. *)
Definition flushed_and_cleared (m : relay) : Prop :=
  exists before after,
    trace m
    = (before
       ++ partialUpdateMessage None (id (message m)) [("text", message_text m)]
       :: clear_event m :: after)%list.

(** The final update is sent when [run] reaches line 121, and not before. *)
Definition final_update_kept (m : relay) : Prop :=
  match run_at m with
  | AwaitClear | Returned true =>
      final_flushes (trace m) = [message_text m] /\ flushed_and_cleared m
  | AwaitErrorEvent _ | AwaitErrorUpdate | Returned false =>
      List.length (final_flushes (trace m)) <= 1
  | _ => final_flushes (trace m) = []
  end.

(** In a calm world [run] holds only streams that will not fail, and the
    error handler is never entered. *)
Definition calm_pc (p : run_pc) : Prop :=
  match p with
  | InStream rest fail resp => sound_stream rest fail /\ fulfilled resp
  | AwaitResponse resp => fulfilled resp
  | InFollowUp rest fail => sound_stream rest fail
  | AwaitErrorEvent _ | AwaitErrorUpdate | Returned false => False
  | _ => True
  end.

Definition calm_kept (m : relay) : Prop :=
  calm_pc (run_at m) /\ count is_error_signal (trace m) = 0.

(** ** Further observations *)

(** A stop event that names another message, or none. *)
Definition foreign_stop (target : string) (t : tick) : bool :=
  match t with
  | Stop event =>
      match message_id event with
      | Some i => negb (String.eqb i target)
      | None => true
      end
  | _ => false
  end.

(** The acknowledgement that lets a stop handler go on to [dispose]. *)
Definition acknowledged_stop (t : tick) : bool :=
  match t with
  | StopSent (Fulfilled _) => true
  | _ => false
  end.

Definition is_generating (e : effect) : bool :=
  match e with
  | sendEvent (ai_indicator_update AI_STATE_GENERATING) _ _ => true
  | _ => false
  end.

Definition is_on_stop (e : effect) : bool :=
  match e with on_stop => true | _ => false end.

(** The text of the fragments of a stream, in order. *)
Fixpoint stream_text (rest : list Chunk) : string :=
  match rest with
  | [] => ""
  | c :: rest' =>
      match text c with
      | Fulfilled chunkText => chunkText ++ stream_text rest'
      | Rejected _ => stream_text rest'
      end
  end.

(** The fragments that the loop body counts: those with a text that is
    not empty. *)
Fixpoint counted_chunks (rest : list Chunk) : Z :=
  match rest with
  | [] => 0
  | c :: rest' =>
      match text c with
      | Fulfilled chunkText =>
          if String.eqb chunkText "" then counted_chunks rest'
          else (1 + counted_chunks rest')%Z
      | Rejected _ => counted_chunks rest'
      end
  end.

Definition is_web_search (call : FunctionCall) : bool :=
  String.eqb (name call) "web_search".

Definition searches_in (calls : list FunctionCall) : nat :=
  List.length (filter is_web_search calls).

Definition calls_in (resp : settled (option (list FunctionCall)))
  : list FunctionCall :=
  match resp with
  | Fulfilled (Some calls) => calls
  | _ => []
  end.

(** What the world holds: the fragments of the two streams and the tool
    calls of the response. *)
Definition first_chunks (w : world) : list Chunk :=
  match first_result w with
  | Fulfilled r => chunks (stream r)
  | Rejected _ => []
  end.

Definition followup_chunks (w : world) : list Chunk :=
  match followup_result w with
  | Fulfilled s => chunks s
  | Rejected _ => []
  end.

Definition world_calls (w : world) : list FunctionCall :=
  match first_result w with
  | Fulfilled r => calls_in (response r)
  | Rejected _ => []
  end.

(** The chunks [run] reads when nothing interrupts it: those of the first
    stream, and those of the follow-up stream when a search was made. *)
Definition chunks_read (w : world) : list Chunk :=
  (first_chunks w
   ++ match searches_in (world_calls w) with
      | O => []
      | S _ => followup_chunks w
      end)%list.

(** A call is addressed to the message of the handler; a partial update
    of the text field alone carries a prefix of [accumulated]. *)
Definition addressed (msg : MessageResponse) (accumulated : string)
    (e : effect) : Prop :=
  match e with
  | sendEvent _ c i => c = cid msg /\ i = id msg
  | partialUpdateMessage _ target [(field, value)] =>
      target = id msg /\ field = "text"
      /\ exists rest, accumulated = value ++ rest
  | partialUpdateMessage _ target _ => target = id msg
  | _ => True
  end.

(** Every call made so far is addressed to the message of the handler,
    and every update of the text alone carries a prefix of the text
    accumulated so far. *)
Definition addressed_kept (m : relay) : Prop :=
  Forall (addressed (message m) (message_text m)) (trace m).

(** How often each signal of [run] has been sent, by where [run] stands. *)
Definition signals_kept (m : relay) : Prop :=
  count is_on_stop (trace m) = 1
  /\ match run_at m with
     | NotStarted => count is_generating (trace m) = 0
     | _ => count is_generating (trace m) = 1
     end
  /\ match run_at m with
     | NotStarted | AwaitGenerating _ | AwaitStream | InStream _ _ _
     | AwaitResponse _ => count is_external_sources (trace m) = 0
     | AwaitExternalSources _ | AwaitSearch _ _ _ _ | AwaitFollowUp
     | InFollowUp _ _ => count is_external_sources (trace m) = 1
     | _ => count is_external_sources (trace m) <= 1
     end
  /\ match run_at m with
     | AwaitErrorEvent _ | AwaitErrorUpdate => count is_error_signal (trace m) = 1
     | Returned false => count is_error_signal (trace m) <= 1
     | _ => count is_error_signal (trace m) = 0
     end.

(** The chunk counter lies between the number of throttled updates and
    the length of the accumulated text. *)
Definition counter_kept (m : relay) : Prop :=
  (Z.of_nat (List.length (update_times (trace m))) <= chunk_counter m)%Z
  /\ (chunk_counter m <= Z.of_nat (String.length (message_text m)))%Z.

(** [dispose] has been reached only by the return of [run]. *)
Definition undisposed (m : relay) : Prop :=
  is_done m = true -> exists c, run_at m = Returned c.

(** While nothing has disposed the handler, the accumulated text and the
    chunk counter are those of the fragments read so far. *)
Definition text_kept (w : world) (m : relay) : Prop :=
  let first := first_chunks w in
  let followUp := followup_chunks w in
  match run_at m with
  | NotStarted | AwaitGenerating _ | AwaitStream =>
      message_text m = "" /\ chunk_counter m = 0%Z
  | InStream rest _ resp =>
      message_text m ++ stream_text rest = stream_text first
      /\ (chunk_counter m + counted_chunks rest)%Z = counted_chunks first
      /\ calls_in resp = world_calls w
  | AwaitResponse resp =>
      message_text m = stream_text first
      /\ chunk_counter m = counted_chunks first
      /\ calls_in resp = world_calls w
  | AwaitExternalSources calls =>
      message_text m = stream_text first
      /\ chunk_counter m = counted_chunks first
      /\ calls = world_calls w
  | AwaitSearch _ _ _ _ | AwaitFollowUp =>
      message_text m = stream_text first
      /\ chunk_counter m = counted_chunks first
      /\ searches_in (world_calls w) <> 0
  | InFollowUp rest _ =>
      message_text m ++ stream_text rest
      = stream_text first ++ stream_text followUp
      /\ (chunk_counter m + counted_chunks rest)%Z
         = (counted_chunks first + counted_chunks followUp)%Z
      /\ searches_in (world_calls w) <> 0
  | AwaitClear | Returned true =>
      message_text m = stream_text (chunks_read w)
      /\ chunk_counter m = counted_chunks (chunks_read w)
  | _ => True
  end.

Definition undisturbed (w : world) (m : relay) : Prop :=
  undisposed m /\ text_kept w m.

(** One search per [web_search] call, and one follow-up prompt at most. *)
Definition round_trip_kept (w : world) (m : relay) : Prop :=
  let total := searches_in (world_calls w) in
  let searched := count is_search (trace m) in
  let prompted := List.length (prompts (trace m)) in
  match run_at m with
  | NotStarted | AwaitGenerating _ => searched = 0 /\ prompted = 0
  | AwaitStream => searched = 0 /\ prompted = 1
  | InStream _ _ resp | AwaitResponse resp =>
      searched = 0 /\ prompted = 1 /\ calls_in resp = world_calls w
  | AwaitExternalSources calls =>
      searched = 0 /\ prompted = 1 /\ calls = world_calls w
  | AwaitSearch _ _ rest _ =>
      searched + searches_in rest = total /\ prompted = 1 /\ 1 <= searched
  | AwaitFollowUp | InFollowUp _ _ =>
      searched = total /\ prompted = 2 /\ 1 <= total
  | AwaitClear | Returned true =>
      searched = total /\ prompted = match total with O => 1 | S _ => 2 end
  | _ => searched <= total /\ prompted <= 2
  end.

(** The partial update made last, if any. *)
Definition is_update (e : effect) : bool :=
  match e with partialUpdateMessage _ _ _ => true | _ => false end.

Definition last_update (tr : list effect) : option effect :=
  List.last (map Some (filter is_update tr)) None.

(** The update of the error handler (lines 174-179): two fields. *)
Definition is_error_update (e : effect) : bool :=
  match e with
  | partialUpdateMessage None _ [_; _] => true
  | _ => false
  end.

Definition last_is_error_update (tr : list effect) : Prop :=
  exists e, last_update tr = Some e /\ is_error_update e = true.

Definition last_write_kept (m : relay) : Prop :=
  match run_at m with
  | AwaitClear | Returned true =>
      count is_error_update (trace m) = 0
      /\ last_update (trace m)
         = Some (partialUpdateMessage None (id (message m))
                   [("text", message_text m)])
  | AwaitErrorUpdate =>
      count is_error_update (trace m) = 1 /\ last_is_error_update (trace m)
  | Returned false =>
      count is_error_update (trace m) = 0
      \/ (count is_error_update (trace m) = 1 /\ last_is_error_update (trace m))
  | _ => count is_error_update (trace m) = 0
  end.

(** How many segments [run] still has to execute once the handler is
    disposed: the fragments left in the streams do not count. *)
Definition segments_left_done (w : world) (p : run_pc) : nat :=
  match p with
  | Returned _ => 0
  | AwaitErrorUpdate | AwaitClear => 1
  | AwaitErrorEvent _ | InFollowUp _ _ => 2
  | AwaitFollowUp => 3
  | AwaitSearch _ _ rest _ => 4 + List.length rest
  | AwaitExternalSources calls => 5 + List.length calls
  | AwaitResponse resp => 6 + calls_of resp
  | InStream _ _ resp => 7 + calls_of resp
  | AwaitStream => 8 + List.length (world_calls w)
  | AwaitGenerating _ => 9 + List.length (world_calls w)
  | NotStarted => 10 + List.length (world_calls w)
  end.

(** Every call of the kind [after] has a call of the kind [before]
    earlier in the trace ([seen] says whether one came before the trace). *)
Fixpoint preceded_from (before after : effect -> bool) (seen : bool)
    (tr : list effect) : Prop :=
  match tr with
  | [] => True
  | e :: rest =>
      (after e = true -> seen = true)
      /\ preceded_from before after (seen || before e) rest
  end.

Definition preceded (before after : effect -> bool) (tr : list effect) : Prop :=
  preceded_from before after false tr.

Definition is_model_prompt (e : effect) : bool :=
  match e with sendMessageStream _ => true | _ => false end.

Definition order_kept (m : relay) : Prop :=
  preceded is_generating is_model_prompt (trace m)
  /\ preceded is_external_sources is_search (trace m)
  /\ signals_kept m.

(** ** Basic facts *)

Lemma append_assoc (a b c : string) : (a ++ b) ++ c = a ++ b ++ c.
Proof.
  induction a as [|x a IH]; simpl; [reflexivity | now rewrite IH].
Qed.

Lemma append_empty_r (a : string) : a ++ "" = a.
Proof.
  induction a as [|x a IH]; simpl; [reflexivity | now rewrite IH].
Qed.

Lemma exec_app (w : world) (um ins : string) (t1 t2 : list tick) (m : relay) :
  exec w um ins (t1 ++ t2)%list m = exec w um ins t2 (exec w um ins t1 m).
Proof. unfold exec. apply fold_left_app. Qed.

(** A property that holds at the start and that every tick preserves holds
    after every execution. *)
Lemma exec_invariant (w : world) (um ins : string) (P : relay -> Prop) :
  (forall t m, P m -> P (step w um ins t m)) ->
  forall ticks m, P m -> P (exec w um ins ticks m).
Proof.
  intros Hstep ticks. induction ticks as [|t ticks IH]; intros m Hm.
  - exact Hm.
  - simpl. apply IH, Hstep, Hm.
Qed.

(** Where the tool loop stops: at the end of the list, or at its first
    [web_search] call, with fewer calls left than it started from. *)
Lemma tool_loop_cases (calls : list FunctionCall) :
  forall (i : nat) (results : list FunctionResult) (m : relay),
    tool_loop i calls results m = after_tools results m
    \/ exists call j rest,
         tool_loop i calls results m
         = goto (AwaitSearch call j rest results)
             (emit (performWebSearch (query call)) m)
         /\ List.length rest < List.length calls.
Proof.
  induction calls as [|call calls IH]; intros i results m; simpl.
  - now left.
  - destruct (String.eqb (name call) "web_search").
    + right. exists call, i, calls. split; [reflexivity | lia].
    + destruct (IH (S i) results m) as [H | (c & j & rest & H & Hlen)].
      * now left.
      * right. exists c, j, rest. split; [exact H | lia].
Qed.

(** A list of calls none of which is a search leaves the loop at once. *)
Lemma tool_loop_no_search (calls : list FunctionCall) :
  Forall (fun call => name call <> "web_search") calls ->
  forall i results m, tool_loop i calls results m = after_tools results m.
Proof.
  induction 1 as [|call calls Hcall _ IH]; intros i results m; simpl.
  - reflexivity.
  - destruct (String.eqb_spec (name call) "web_search") as [E | _].
    + contradiction.
    + apply IH.
Qed.

(** ** The outbound prompt (line 28) *)

(** C9, as the code has it: the prompt sent to the model session is the
    instruction text, a blank line, the label "User message: " and then the
    user message. With the first event acknowledged, the call of [run] and
    its next segment send the GENERATING signal and then exactly that
    prompt. *)
Theorem prompt_is_instructions_label_message
    (w : world) (userMessage instructions : string) (m : relay) :
  run_at m = NotStarted ->
  generating_ack w = Fulfilled tt ->
  trace (exec w userMessage instructions [Run; Run] m)
  = (trace m ++
       [ update_event AI_STATE_GENERATING m;
         sendMessageStream
           (instructions ++ newline ++ newline ++ "User message: " ++ userMessage) ])%list.
Proof.
  intros Hpc Hack. simpl. unfold resume at 2. rewrite Hpc.
  unfold resume. simpl. rewrite Hack. simpl.
  now rewrite <- app_assoc.
Qed.

Lemma prompt_is_instructions_label_message_witness :
  trace (exec Sample.plain "Hi" "Be concise" [Run; Run] (construct Sample.msg))
  = [ on_stop;
      sendEvent (ai_indicator_update AI_STATE_GENERATING) "messaging:c1" "m1";
      sendMessageStream
        ("Be concise" ++ newline ++ newline ++ "User message: " ++ "Hi") ].
Proof.
  exact (prompt_is_instructions_label_message Sample.plain "Hi" "Be concise"
           (construct Sample.msg) eq_refl eq_refl).
Defined.

(** C9, as stated, fails: for the instructions "Be concise" and the user
    message "Hi" the prompt sent is not the instruction text directly
    followed by the user message. *)
Lemma prompt_is_not_bare_concatenation :
  let m := exec Sample.plain "Hi" "Be concise" [Run; Run] (construct Sample.msg) in
  prompts (trace m)
  = [ "Be concise" ++ newline ++ newline ++ "User message: Hi" ]
  /\ prompts (trace m) <> [ "Be concise" ++ "Hi" ].
Proof.
  split.
  - reflexivity.
  - vm_compute. discriminate.
Qed.

(** ** The follow-up prompt (lines 93-97) *)

Lemma join_from_followup (results : list FunctionResult) :
  forall (R : string) (r : FunctionResult),
    join_from (newline ++ newline) (R ++ spec_pair_text r) false
      (map spec_pair_text results)
    = R ++ spec_followup_text (r :: results).
Proof.
  induction results as [|r' results IH]; intros R r.
  - reflexivity.
  - cbn [map join_from].
    rewrite (IH ((R ++ spec_pair_text r) ++ newline ++ newline) r').
    change (spec_followup_text (r :: r' :: results))
      with (spec_pair_text r ++ newline ++ newline
            ++ spec_followup_text (r' :: results)).
    now rewrite !append_assoc.
Qed.

Lemma functionResultsText_spec (results : list FunctionResult) :
  functionResultsText results = spec_followup_text results.
Proof.
  destruct results as [|r results]; [reflexivity|].
  unfold functionResultsText, join.
  change (fun result => "Function: " ++ result_name result ++ newline
                        ++ "Result: " ++ result_response result)
    with spec_pair_text.
  cbn [map join_from].
  exact (join_from_followup results "" r).
Qed.

(** C8: whenever the tool loop has produced results, the prompt sent next
    is the text the specification describes, and [run] then awaits the
    follow-up stream; so when the search of the last call settles, the call
    [run] makes is that prompt for the results gathered so far and this one.
    In the scenario of one [web_search] call answered with the JSON text of
    "answer": "bar", the last call made when the search has settled is the
    prompt with the text "Function: web_search", line break, "Result: " and
    the answer. *)
Theorem followup_prompt_text :
  (forall (functionResults : list FunctionResult) (m : relay),
      functionResults <> [] ->
      after_tools functionResults m
      = goto AwaitFollowUp
          (emit (sendMessageStream (spec_followup_text functionResults)) m))
  /\ (forall (w : world) (userMessage instructions : string) (m : relay)
             (call : FunctionCall) (i : nat) (results : list FunctionResult)
             (found : search_run),
         run_at m = AwaitSearch call i [] results ->
         search w i = Fulfilled found ->
         trace (step w userMessage instructions Run m)
         = (trace m ++
              [ sendMessageStream
                  (spec_followup_text
                     (results ++
                        [ {| result_name := name call;
                             result_response := performWebSearch_body found |} ])) ])%list)
  /\ last (trace (exec Sample.searching "foo?" "Be concise"
                    [Run; Run; Run; Run; Run; Run; Run] (construct Sample.msg)))
          on_stop
     = sendMessageStream
         ("Function: web_search" ++ newline ++ "Result: " ++ Sample.answer_bar).
Proof.
  assert (Hgeneral : forall (functionResults : list FunctionResult) (m : relay),
             functionResults <> [] ->
             after_tools functionResults m
             = goto AwaitFollowUp
                 (emit (sendMessageStream (spec_followup_text functionResults)) m)).
  { intros functionResults m Hne.
    destruct functionResults as [|r rest]; [contradiction|].
    unfold after_tools. now rewrite functionResultsText_spec. }
  split; [exact Hgeneral | split].
  - intros w userMessage instructions m call i results found Hpc Hfound.
    simpl. unfold resume. rewrite Hpc, Hfound. cbn [tool_loop].
    rewrite Hgeneral; [reflexivity|].
    intros H. now apply app_eq_nil in H as [_ H].
  - vm_compute. reflexivity.
Qed.

Lemma followup_prompt_text_witness :
  after_tools [ {| result_name := "web_search"; result_response := "r1" |};
                {| result_name := "web_search"; result_response := "r2" |} ]
    (construct Sample.msg)
  = goto AwaitFollowUp
      (emit (sendMessageStream
               ("Function: web_search" ++ newline ++ "Result: r1"
                ++ newline ++ newline
                ++ "Function: web_search" ++ newline ++ "Result: r2"))
         (construct Sample.msg))
  /\ prompts
       (trace (step Sample.searching "foo?" "Be concise" Run
                 (exec Sample.searching "foo?" "Be concise"
                    [Run; Run; Run; Run; Run; Run] (construct Sample.msg))))
     = [ fullPrompt "foo?" "Be concise";
         "Function: web_search" ++ newline ++ "Result: " ++ Sample.answer_bar ].
Proof.
  split.
  - refine (proj1 followup_prompt_text _ (construct Sample.msg) _).
    discriminate.
  - rewrite (proj1 (proj2 followup_prompt_text) Sample.searching "foo?"
               "Be concise"
               (exec Sample.searching "foo?" "Be concise"
                  [Run; Run; Run; Run; Run; Run] (construct Sample.msg))
               {| name := "web_search"; query := "foo" |} 0 []
               (fetch_ok Sample.answer_bar) eq_refl eq_refl).
    reflexivity.
Defined.

(** ** The stop-signal handler (lines 149-162) *)

(** C5: a stop event that arrives when the handler is already done, or
    that names another message (or none), changes nothing: no field, no
    call, no suspended invocation. Any other stop event sends the CLEAR
    signal and, once that call has been acknowledged, disposes: the
    listener is removed, the callback invoked and [is_done] set. *)
Theorem stop_event_handling
    (w : world) (userMessage instructions : string) (m : relay) (event : Event) :
  ((is_done m = true \/ message_id event <> Some (id (message m))) ->
   step w userMessage instructions (Stop event) m = m)
  /\ (is_done m = false ->
      message_id event = Some (id (message m)) ->
      step w userMessage instructions (Stop event) m
      = set_stops_pending (S (stops_pending m)) (emit (clear_event m) m)
      /\ exec w userMessage instructions [Stop event; StopSent (Fulfilled tt)] m
         = emit onDispose
             (emit off_stop (set_is_done true (emit (clear_event m) m)))).
Proof.
  split.
  - intros H. simpl. unfold handleStopGenerating.
    destruct (is_done m); [reflexivity|].
    destruct H as [H | H]; [discriminate|].
    destruct (message_id event) as [i|]; [|reflexivity].
    destruct (String.eqb_spec i (id (message m))) as [-> | _];
      [contradiction | reflexivity].
  - intros Hdone Hid. simpl. unfold handleStopGenerating.
    rewrite Hdone, Hid, String.eqb_refl. simpl. split; [reflexivity|].
    unfold handleStopGenerating_resume, dispose. simpl. rewrite Hdone.
    destruct m; reflexivity.
Qed.

Lemma stop_event_handling_witness :
  step Sample.plain "Hi" "Be concise" (Stop {| message_id := Some "m2" |})
    (construct Sample.msg)
  = construct Sample.msg
  /\ trace (exec Sample.plain "Hi" "Be concise"
              [Sample.stop_m1; StopSent (Fulfilled tt)] (construct Sample.msg))
     = [ on_stop; sendEvent ai_indicator_clear "messaging:c1" "m1";
         off_stop; onDispose ].
Proof.
  split.
  - apply (proj1 (stop_event_handling Sample.plain "Hi" "Be concise"
                    (construct Sample.msg) {| message_id := Some "m2" |})).
    right. discriminate.
  - unfold Sample.stop_m1.
    rewrite (proj2 (proj2 (stop_event_handling Sample.plain "Hi" "Be concise"
                             (construct Sample.msg) {| message_id := Some "m1" |})
                      eq_refl eq_refl)).
    reflexivity.
Defined.

(** ** The error handler (lines 132-134 and 164-181) *)

(** C4: every error raised inside [run] enters the error handler. If the
    handler is already done, nothing is sent and no field changes: [run]
    returns. Otherwise the ERROR signal is sent; once it is acknowledged the
    text field of the target message is set to the message of the error
    (or to a fixed text when the error has none) and the field "message"
    to its string form, whatever text had been streamed; once that is
    acknowledged the handler disposes. *)
Theorem error_handler
    (w : world) (userMessage instructions : string) (m : relay) (error : Error) :
  (raises w m error -> step w userMessage instructions Run m = handleError error m)
  /\ (is_done m = true -> handleError error m = goto (Returned false) m)
  /\ (is_done m = false ->
      error_ack w = Fulfilled tt ->
      error_update_ack w = Fulfilled tt ->
      handleError error m
      = goto (AwaitErrorEvent error) (emit (update_event AI_STATE_ERROR m) m)
      /\ exec w userMessage instructions [Run; Run] (handleError error m)
         = goto (Returned false)
             (emit onDispose
                (emit off_stop
                   (set_is_done true
                      (emit (partialUpdateMessage None (id (message m))
                               [ ("text",
                                  match error_message error with
                                  | Some text => text
                                  | None => "Error generating the message"
                                  end);
                                 ("message", error_toString error) ])
                         (emit (update_event AI_STATE_ERROR m) m)))))).
Proof.
  split; [|split].
  - intros H. simpl. unfold resume.
    destruct H as [p Hpc H | Hpc H | resp Hpc | c rest fail resp Hpc Hd H
                  | Hpc | calls Hpc H | Hpc H | Hpc | c rest fail Hpc Hd H
                  | Hpc H];
      rewrite Hpc; try rewrite H; try rewrite Hd; reflexivity.
  - intros Hdone. unfold handleError, finally, dispose. now rewrite Hdone.
  - intros Hdone Hack Hupd. unfold handleError. rewrite Hdone.
    split; [reflexivity|].
    simpl. unfold resume at 2. simpl. rewrite Hack.
    unfold resume. simpl. rewrite Hupd.
    unfold handleError_dispose, finally, dispose. simpl. rewrite Hdone. simpl.
    reflexivity.
Qed.

Lemma error_handler_witness :
  trace (exec Sample.broken "Hi" "Be concise"
           [Run; Run; Run; Run; Run; Run; Run; Run] (construct Sample.msg))
  = [ on_stop;
      sendEvent (ai_indicator_update AI_STATE_GENERATING) "messaging:c1" "m1";
      sendMessageStream (fullPrompt "Hi" "Be concise");
      partialUpdateMessage (Some 5000%Z) "m1" [("text", "Sun")];
      sendEvent (ai_indicator_update AI_STATE_ERROR) "messaging:c1" "m1";
      partialUpdateMessage None "m1" [("text", "boom"); ("message", "Error: boom")];
      off_stop; onDispose ]
  /\ handleError Sample.boom (dispose (construct Sample.msg))
     = goto (Returned false) (dispose (construct Sample.msg)).
Proof.
  split;
    [| exact (proj1 (proj2 (error_handler Sample.plain "Hi" "Be concise"
                              (dispose (construct Sample.msg)) Sample.boom))
                eq_refl) ].
  change [Run; Run; Run; Run; Run; Run; Run; Run]
    with ([Run; Run; Run; Run; Run] ++ [Run] ++ [Run; Run])%list.
  rewrite !exec_app.
  set (m := exec Sample.broken "Hi" "Be concise" [Run; Run; Run; Run; Run]
              (construct Sample.msg)).
  change (exec Sample.broken "Hi" "Be concise" [Run] m)
    with (step Sample.broken "Hi" "Be concise" Run m).
  rewrite (proj1 (error_handler Sample.broken "Hi" "Be concise" m Sample.boom)).
  - rewrite (proj2 (proj2 (proj2 (error_handler Sample.broken "Hi" "Be concise"
                                    m Sample.boom))
                      eq_refl eq_refl eq_refl)).
    reflexivity.
  - apply (raises_iterator _ _ _ (Fulfilled None)). reflexivity.
Defined.

(** ** Tool calls without a search (lines 61-71, 93, 120-129) *)

(** C10: when the response lists tool calls, none of them named
    [web_search], the EXTERNAL_SOURCES signal is sent; once it is
    acknowledged the next calls [run] makes are the final update and the
    CLEAR signal: no search and no follow-up prompt in between. *)
Theorem tool_calls_without_search
    (w : world) (userMessage instructions : string) (m : relay)
    (calls : list FunctionCall) :
  run_at m = AwaitResponse (Fulfilled (Some calls)) ->
  calls <> [] ->
  Forall (fun call => name call <> "web_search") calls ->
  external_ack w = Fulfilled tt ->
  exec w userMessage instructions [Run] m
  = goto (AwaitExternalSources calls)
      (emit (update_event AI_STATE_EXTERNAL_SOURCES m) m)
  /\ exec w userMessage instructions [Run; Run] m
     = goto AwaitClear
         (emit (clear_event m)
            (emit (partialUpdateMessage None (id (message m))
                     [("text", message_text m)])
               (emit (update_event AI_STATE_EXTERNAL_SOURCES m) m))).
Proof.
  intros Hpc Hne Hnames Hack.
  assert (H1 : resume w userMessage instructions m
               = goto (AwaitExternalSources calls)
                   (emit (update_event AI_STATE_EXTERNAL_SOURCES m) m)).
  { unfold resume. rewrite Hpc. destruct calls; [contradiction | reflexivity]. }
  split; simpl; rewrite H1; [reflexivity|].
  unfold resume. simpl. rewrite Hack.
  rewrite tool_loop_no_search by exact Hnames.
  reflexivity.
Qed.

Lemma tool_calls_without_search_witness :
  trace (exec Sample.other_tool "Hi" "Be concise"
           [Run; Run; Run; Run; Run; Run; Run; Run] (construct Sample.msg))
  = [ on_stop;
      sendEvent (ai_indicator_update AI_STATE_GENERATING) "messaging:c1" "m1";
      sendMessageStream (fullPrompt "Hi" "Be concise");
      partialUpdateMessage (Some 5000%Z) "m1" [("text", "Sun")];
      sendEvent (ai_indicator_update AI_STATE_EXTERNAL_SOURCES) "messaging:c1" "m1";
      partialUpdateMessage None "m1" [("text", "Sunny today")];
      sendEvent ai_indicator_clear "messaging:c1" "m1" ].
Proof.
  change [Run; Run; Run; Run; Run; Run; Run; Run]
    with ([Run; Run; Run; Run; Run; Run] ++ [Run; Run])%list.
  rewrite exec_app.
  set (m := exec Sample.other_tool "Hi" "Be concise" [Run; Run; Run; Run; Run; Run]
              (construct Sample.msg)).
  rewrite (proj2 (tool_calls_without_search Sample.other_tool "Hi" "Be concise" m
                    [ {| name := "get_weather"; query := "" |} ]
                    eq_refl ltac:(discriminate)
                    ltac:(repeat constructor; discriminate) eq_refl)).
  reflexivity.
Defined.

(** ** [run] returns *)

Lemma segments_handleError (w : world) (e : Error) (m : relay) :
  segments_left w (run_at (handleError e m)) <= 2.
Proof.
  unfold handleError, finally. destruct (is_done m); simpl; lia.
Qed.

Lemma segments_after_tools (w : world) (results : list FunctionResult) (m : relay) :
  segments_left w (run_at (after_tools results m)) <= 5 + followup_length w.
Proof.
  destruct results; simpl; lia.
Qed.

Lemma segments_tool_loop (w : world) (calls : list FunctionCall) (i : nat)
    (results : list FunctionResult) (m : relay) :
  segments_left w (run_at (tool_loop i calls results m))
  <= 5 + followup_length w + List.length calls.
Proof.
  destruct (tool_loop_cases calls i results m) as [-> | (c & j & rest & -> & Hlen)].
  - pose proof (segments_after_tools w results m). lia.
  - simpl. lia.
Qed.

(** Every segment of [run] brings it closer to its return. *)
Lemma resume_progress (w : world) (um ins : string) (m : relay) :
  (forall c, run_at m <> Returned c) ->
  segments_left w (run_at (resume w um ins m)) < segments_left w (run_at m).
Proof.
  intros Hrun. unfold resume.
  destruct (run_at m) as [ | p | | rest fail resp | resp | calls
                         | call i rest results | | rest fail | | e | | c ] eqn:Hpc.
  - simpl. lia.
  - destruct (generating_ack w).
    + simpl. lia.
    + pose proof (segments_handleError w e m). simpl. lia.
  - cbn [segments_left]. unfold first_length.
    destruct (first_result w) as [r | e].
    + simpl. lia.
    + pose proof (segments_handleError w e m). simpl. lia.
  - destruct rest as [|chunk rest].
    + destruct fail as [e|].
      * pose proof (segments_handleError w e m). simpl. lia.
      * simpl. lia.
    + destruct (is_done m); [simpl; lia|].
      destruct (text chunk) as [s | e].
      * simpl. lia.
      * pose proof (segments_handleError w e m). simpl. lia.
  - destruct resp as [[[|call rest]|] | e]; try (simpl; lia).
    pose proof (segments_handleError w e m). simpl. lia.
  - destruct (external_ack w) as [u | e].
    + pose proof (segments_tool_loop w calls 0 [] m). simpl. lia.
    + pose proof (segments_handleError w e m). simpl. lia.
  - match goal with |- context [tool_loop ?i ?c ?r ?m] =>
      pose proof (segments_tool_loop w c i r m) end.
    simpl. lia.
  - cbn [segments_left]. unfold followup_length.
    destruct (followup_result w) as [s | e].
    + simpl. lia.
    + pose proof (segments_handleError w e m). simpl. lia.
  - destruct rest as [|chunk rest].
    + destruct fail as [e|].
      * pose proof (segments_handleError w e m). simpl. lia.
      * simpl. lia.
    + destruct (is_done m); [simpl; lia|].
      destruct (text chunk) as [s | e].
      * simpl. lia.
      * pose proof (segments_handleError w e m). simpl. lia.
  - destruct (clear_ack w) as [u | e].
    + simpl. lia.
    + pose proof (segments_handleError w e m). simpl. lia.
  - destruct (error_ack w); simpl; lia.
  - destruct (error_update_ack w); simpl; lia.
  - now elim (Hrun c).
Qed.

Lemma run_at_stop (w : world) (um ins : string) (t : tick) (m : relay) :
  t <> Run -> run_at (step w um ins t m) = run_at m.
Proof.
  intros Ht. destruct t as [ | event | ack ]; [contradiction | |]; simpl.
  - unfold handleStopGenerating.
    destruct (is_done m || _); reflexivity.
  - unfold handleStopGenerating_resume, dispose.
    destruct (stops_pending m); [reflexivity|].
    destruct ack; simpl; [|reflexivity].
    destruct (is_done m); reflexivity.
Qed.

(** [run] has returned once it has been given [segments_left] segments,
    however the stop events are interleaved. *)
Lemma run_returns (w : world) (um ins : string) (ticks : list tick) :
  forall m, segments_left w (run_at m) <= runs ticks ->
            exists c, run_at (exec w um ins ticks m) = Returned c.
Proof.
  induction ticks as [|t ticks IH]; intros m Hm.
  - unfold runs in Hm. simpl in *.
    destruct (run_at m); simpl in Hm; try lia. now eexists.
  - simpl. apply IH. destruct t as [ | event | ack ].
    + unfold runs in Hm. simpl in Hm. fold (runs ticks) in Hm.
      destruct (run_at m) as [ | | | | | | | | | | | | c ] eqn:Hpc;
        try (assert (Hn : forall c, run_at m <> Returned c)
               by (intros c; rewrite Hpc; discriminate);
             pose proof (resume_progress w um ins m Hn) as Hp;
             rewrite Hpc in Hp; simpl; lia).
      simpl. unfold resume. rewrite Hpc. rewrite Hpc. simpl. lia.
    + rewrite run_at_stop by discriminate. exact Hm.
    + rewrite run_at_stop by discriminate. exact Hm.
Qed.

(** ** Case analysis of a tick *)

Lemma count_snoc (p : effect -> bool) (tr : list effect) (e : effect) :
  count p (tr ++ [e]) = count p tr + Nat.b2n (p e).
Proof.
  unfold count. rewrite filter_app, length_app. simpl.
  destruct (p e); reflexivity.
Qed.

(** Splits the goal along every branch the tick can take. *)
Ltac split_tick :=
  unfold step, resume, handleStopGenerating, handleStopGenerating_resume,
    handleError, handleError_update, handleError_dispose, finally, dispose,
    final_flush, consume;
  repeat match goal with
    | |- context [tool_loop ?i ?c ?r ?x] =>
        let H := fresh "Hloop" in
        destruct (tool_loop_cases c i r x) as [H | (? & ? & ? & H & ?)];
        rewrite H; clear H
    | |- context [after_tools ?r ?x] =>
        unfold after_tools; destruct r eqn:?
    | |- context [match ?x with _ => _ end] => destruct x eqn:?
    end.

(** Uses the branch's equations on the fields that survive the tick. *)
Ltac known_fields :=
  cbn [is_done run_at message message_text trace last_update_time
       set_stops_pending set_is_done emit goto] in *;
  repeat match goal with
    | H : is_done ?m = _ |- context [is_done ?m] => rewrite H
    | H : run_at ?m = _ |- context [run_at ?m] => rewrite H
    | H : is_done ?m = _, H' : context [Nat.b2n (is_done ?m)] |- _ =>
        rewrite H in H'
    end;
  cbn [Nat.b2n] in *.

(** ** [dispose] runs once *)

Lemma disposed_once_step (w : world) (um ins : string) (t : tick) (m : relay) :
  disposed_once m -> disposed_once (step w um ins t m).
Proof.
  unfold disposed_once. destruct t; split_tick; cbn -[count];
    rewrite ?count_snoc; cbn -[count];
    intros (H1 & H2 & H3); known_fields; cbn -[count];
    repeat split; try lia; try congruence; try assumption;
    try (intros; discriminate).
Qed.

Lemma disposed_once_construct (msg : MessageResponse) :
  disposed_once (construct msg).
Proof. repeat split. intros c H. discriminate H. Qed.

(** C2: [dispose] sets [is_done], removes the stop listener and invokes
    the callback when the handler is not yet done, and does nothing when it
    is, so a second call is a no-op. Along every execution, however stop
    events and failures are interleaved, the callback has been invoked and
    the listener removed once if [is_done] is set and not at all otherwise;
    and as soon as [run] has been given the segments it needs it has
    returned, [is_done] is set, and the callback has been invoked exactly
    once. *)
Theorem dispose_exactly_once
    (w : world) (userMessage instructions : string) (msg : MessageResponse)
    (ticks : list tick) :
  let m := exec w userMessage instructions ticks (construct msg) in
  (forall h, is_done h = false ->
             dispose h = emit onDispose (emit off_stop (set_is_done true h)))
  /\ (forall h, is_done h = true -> dispose h = h)
  /\ (forall h, dispose (dispose h) = dispose h)
  /\ count is_onDispose (trace m) = Nat.b2n (is_done m)
  /\ count is_off_stop (trace m) = Nat.b2n (is_done m)
  /\ (run_bound w <= runs ticks ->
      exists isCompleted,
        run_at m = Returned isCompleted
        /\ is_done m = true
        /\ count is_onDispose (trace m) = 1
        /\ count is_off_stop (trace m) = 1).
Proof.
  intros m.
  assert (Hinv : disposed_once m).
  { apply exec_invariant; [intros; now apply disposed_once_step|].
    apply disposed_once_construct. }
  destruct Hinv as (H1 & H2 & H3).
  repeat split.
  - intros h Hh. unfold dispose. now rewrite Hh.
  - intros h Hh. unfold dispose. now rewrite Hh.
  - intros h. unfold dispose. destruct (is_done h) eqn:Hh.
    + now rewrite Hh.
    + reflexivity.
  - exact H1.
  - exact H2.
  - intros Hruns.
    destruct (run_returns w userMessage instructions ticks (construct msg) Hruns)
      as [c Hc].
    exists c. fold m in Hc. pose proof (H3 c Hc) as Hd.
    rewrite Hd in H1, H2. auto.
Qed.

Lemma dispose_exactly_once_witness :
  exists isCompleted,
    let m := exec Sample.broken "Hi" "Be concise"
               [Run; Run; Run; Sample.stop_m1; Run; Run; StopSent (Fulfilled tt);
                Run; Run; Run; Run; Run; Run; Run; Run; Run]
               (construct Sample.msg) in
    run_at m = Returned isCompleted
    /\ is_done m = true
    /\ count is_onDispose (trace m) = 1
    /\ count is_off_stop (trace m) = 1.
Proof.
  refine (proj2 (proj2 (proj2 (proj2 (proj2
            (dispose_exactly_once Sample.broken "Hi" "Be concise" Sample.msg
               [Run; Run; Run; Sample.stop_m1; Run; Run; StopSent (Fulfilled tt);
                Run; Run; Run; Run; Run; Run; Run; Run; Run]))))) _).
  vm_compute. repeat constructor.
Defined.

(** ** No tool call, no follow-up (lines 59-67, 93-97) *)

Lemma flat_map_snoc {A B : Type} (f : A -> list B) (l : list A) (a : A) :
  flat_map f (l ++ [a]) = (flat_map f l ++ f a)%list.
Proof. rewrite flat_map_app. simpl. now rewrite app_nil_r. Qed.

Lemma prompts_snoc (tr : list effect) (e : effect) :
  prompts (tr ++ [e]) = (prompts tr ++ prompt_of e)%list.
Proof. apply flat_map_snoc. Qed.

(** Splits a goal about [step w um ins t m] along the branches of the tick,
    then brings the branch's equations to the hypotheses and the goal. *)
Ltac tick_cases :=
  match goal with
  | |- context [step ?w ?um ?ins ?t ?m] =>
      let m' := fresh "m'" in
      let E := fresh "E" in
      remember (step w um ins t m) as m' eqn:E; revert E;
      destruct t; split_tick; intros ->
  end.

Ltac use_equations :=
  repeat match goal with
    | H : ?l = _, H' : context [?l] |- _ => rewrite H in H'
    end;
  repeat match goal with
    | H : ?l = _ |- context [?l] => rewrite H
    end.

Lemma quiet_step (w : world) (um ins : string) (t : tick) (m : relay) :
  no_tool_calls w -> quiet um ins m -> quiet um ins (step w um ins t m).
Proof.
  intros Hw Hq. tick_cases.
  all: unfold no_tool_calls, quiet, first_prompt_only in *.
  all: cbn -[count prompts fullPrompt] in *.
  all: use_equations.
  all: cbn -[count prompts fullPrompt] in *.
  all: rewrite ?count_snoc, ?prompts_snoc, ?app_nil_r.
  all: cbn -[count prompts fullPrompt] in *.
  all: destruct Hq as (Hp & Hx & Hs & Hf).
  all: try contradiction.
  all: repeat split; try lia; try assumption; try tauto.
  destruct Hf as [-> ->]. now right.
Qed.

Lemma quiet_construct (um ins : string) (msg : MessageResponse) :
  quiet um ins (construct msg).
Proof. now repeat split. Qed.

(** C7: when the structured response holds no tool call (an empty list or
    none), no execution sends the EXTERNAL_SOURCES signal or makes a search,
    and the only prompt that may have been sent to the model session is the
    first one. *)
Theorem no_tool_calls_no_followup
    (w : world) (userMessage instructions : string) (msg : MessageResponse)
    (ticks : list tick) :
  no_tool_calls w ->
  let m := exec w userMessage instructions ticks (construct msg) in
  count is_external_sources (trace m) = 0
  /\ count is_search (trace m) = 0
  /\ (prompts (trace m) = []
      \/ prompts (trace m) = [fullPrompt userMessage instructions]).
Proof.
  intros Hw m.
  assert (Hq : quiet userMessage instructions m).
  { apply exec_invariant; [intros; now apply quiet_step|].
    apply quiet_construct. }
  destruct Hq as (_ & Hx & Hs & Hf). repeat split; try assumption.
  unfold first_prompt_only in Hf.
  destruct (run_at m); try exact Hf; try (now left).
Qed.

Lemma no_tool_calls_no_followup_witness :
  let m := exec Sample.plain "What's the weather?" "Be concise"
             [Run; Run; Run; Run; Run; Run; Run; Run] (construct Sample.msg) in
  count is_external_sources (trace m) = 0
  /\ count is_search (trace m) = 0
  /\ (prompts (trace m) = []
      \/ prompts (trace m) = [fullPrompt "What's the weather?" "Be concise"]).
Proof.
  apply (no_tool_calls_no_followup Sample.plain "What's the weather?" "Be concise"
           Sample.msg [Run; Run; Run; Run; Run; Run; Run; Run]).
  exact I.
Defined.


(** ** The throttle and the final update (lines 44-56, 104-116, 120-123) *)

Lemma update_times_snoc (tr : list effect) (e : effect) :
  update_times (tr ++ [e]) = (update_times tr ++ update_time e)%list.
Proof. apply flat_map_snoc. Qed.

Lemma final_flushes_snoc (tr : list effect) (e : effect) :
  final_flushes (tr ++ [e]) = (final_flushes tr ++ final_text e)%list.
Proof. apply flat_map_snoc. Qed.

Lemma latest_cons (last t : Z) (times : list Z) :
  latest last (t :: times) = latest t times.
Proof.
  unfold latest. revert last t.
  induction times as [|t' times IH]; intros last t.
  - reflexivity.
  - change (List.last (t :: t' :: times) last) with (List.last (t' :: times) last).
    now rewrite !IH.
Qed.

Lemma throttled_snoc (times : list Z) (t : Z) :
  forall last,
    throttled last times -> (t - latest last times > 1000)%Z ->
    throttled last (times ++ [t]).
Proof.
  induction times as [|t' times IH]; intros last Hthr Ht.
  - simpl in *. auto.
  - destruct Hthr as [Hgap Hthr]. split; [exact Hgap|].
    apply IH; [exact Hthr|]. now rewrite <- (latest_cons last).
Qed.

Lemma latest_snoc (last : Z) (times : list Z) (t : Z) :
  latest last (times ++ [t]) = t.
Proof. apply last_last. Qed.

Lemma throttle_kept_step (w : world) (um ins : string) (t : tick) (m : relay) :
  throttle_kept m -> throttle_kept (step w um ins t m).
Proof.
  intros Hk. tick_cases.
  all: unfold throttle_kept in *.
  all: cbn -[update_times throttled latest Z.gtb Z.sub] in *.
  all: rewrite ?update_times_snoc.
  all: cbn -[update_times throttled latest Z.gtb Z.sub] in *.
  all: rewrite ?app_nil_r.
  all: try exact Hk.
  all: destruct Hk as [Hthr Hlast].
  all: rewrite latest_snoc; split; [|reflexivity].
  all: apply throttled_snoc; [exact Hthr|].
  all: rewrite Hlast.
  all: match goal with H : (_ >? _)%Z = true |- _ => apply Z.gtb_lt in H end.
  all: lia.
Qed.

Lemma throttle_kept_construct (msg : MessageResponse) :
  throttle_kept (construct msg).
Proof. split; reflexivity. Qed.

Lemma flushed_and_cleared_final_flush (m : relay) :
  flushed_and_cleared (final_flush m).
Proof.
  exists (trace m), []. unfold final_flush. cbn.
  now rewrite <- app_assoc.
Qed.

(** A tick that leaves the message and the accumulated text alone and
    only adds calls keeps the final update in place. *)
Lemma flushed_and_cleared_frame (m m' : relay) (added : list effect) :
  message m' = message m ->
  message_text m' = message_text m ->
  trace m' = (trace m ++ added)%list ->
  flushed_and_cleared m -> flushed_and_cleared m'.
Proof.
  intros Hmsg Htext Htrace (before & after & H).
  exists before, (after ++ added)%list.
  unfold clear_event. rewrite Htrace, Hmsg, Htext, H.
  unfold clear_event. now rewrite <- app_assoc.
Qed.

Ltac frame_trace :=
  cbn [trace message message_text emit goto set_is_done set_stops_pending];
  rewrite <- ?app_assoc;
  first [ reflexivity | symmetry; apply app_nil_r ].

Lemma final_update_kept_step (w : world) (um ins : string) (t : tick) (m : relay) :
  final_update_kept m -> final_update_kept (step w um ins t m).
Proof.
  intros Hk. tick_cases.
  all: unfold final_update_kept in *.
  all: cbn -[final_flushes flushed_and_cleared] in *.
  all: use_equations.
  all: try match goal with
         | |- match run_at ?m with _ => _ end =>
             destruct (run_at m) as [ | | | | | | | | | | | | [|] ]
         end.
  all: cbn -[final_flushes flushed_and_cleared] in *.
  all: rewrite ?final_flushes_snoc.
  all: cbn -[final_flushes flushed_and_cleared] in *.
  all: rewrite ?app_nil_r.
  all: try exact Hk.
  all: try reflexivity.
  all: try (rewrite Hk; cbn; lia).
  all: try lia.
  all: try (split; [ rewrite Hk; reflexivity
                   | apply (flushed_and_cleared_final_flush m) ]).
  all: try match goal with
         | Hk : _ /\ flushed_and_cleared _ |- _ /\ _ =>
             destruct Hk as [Hk Hfc]; split; [ exact Hk | ];
             eapply flushed_and_cleared_frame; [ | | | exact Hfc ]; frame_trace
         end.
  all: destruct Hk as [Hk _]; rewrite Hk; cbn; lia.
Qed.

Lemma final_update_kept_construct (msg : MessageResponse) :
  final_update_kept (construct msg).
Proof. reflexivity. Qed.

(** ** Calm worlds *)

Lemma calm_kept_step (w : world) (um ins : string) (t : tick) (m : relay) :
  calm w -> calm_kept m -> calm_kept (step w um ins t m).
Proof.
  intros Hw Hk. tick_cases.
  all: unfold calm, calm_kept, calm_pc, sound_stream in *.
  all: cbn -[count] in *.
  all: use_equations.
  all: cbn -[count] in *.
  all: use_equations.
  all: cbn -[count] in *.
  all: rewrite ?count_snoc.
  all: cbn -[count] in *.
  all: try tauto.
  all: split; [tauto | lia].
Qed.

Lemma calm_kept_construct (msg : MessageResponse) : calm_kept (construct msg).
Proof. now split. Qed.

(** In a calm world [run] completes: it returns with [isCompleted] set. *)
Lemma calm_run_completes (w : world) (um ins : string) (msg : MessageResponse)
    (ticks : list tick) :
  calm w -> run_bound w <= runs ticks ->
  run_at (exec w um ins ticks (construct msg)) = Returned true.
Proof.
  intros Hw Hruns.
  destruct (run_returns w um ins ticks (construct msg) Hruns) as [c Hc].
  assert (Hk : calm_kept (exec w um ins ticks (construct msg))).
  { apply exec_invariant; [intros; now apply calm_kept_step|].
    apply calm_kept_construct. }
  destruct Hk as [Hpc _]. rewrite Hc in *.
  destruct c; [reflexivity | contradiction].
Qed.

(** C3: along every execution the updates sent from the stream loops are
    throttled: the clock reading at each of them is more than 1000 ms after
    the reading at the one before (and the first is more than 1000 ms after
    the initial [last_update_time], 0). The final update is sent at most
    once; when [run] has completed it has been sent exactly once, with the
    whole accumulated text, directly before the CLEAR signal, whether or
    not any throttled update was sent; when no call of [run] fails, [run]
    does complete; and once a stream is exhausted (the first one with no
    tool call in the response, or the follow-up) the final update is the
    next thing [run] does, whatever the clock and [is_done] say. *)
Theorem throttle_and_final_update
    (w : world) (userMessage instructions : string) (msg : MessageResponse)
    (ticks : list tick) :
  let m := exec w userMessage instructions ticks (construct msg) in
  throttled 0 (update_times (trace m))
  /\ List.length (final_flushes (trace m)) <= 1
  /\ (run_at m = Returned true ->
      final_flushes (trace m) = [message_text m] /\ flushed_and_cleared m)
  /\ (calm w -> run_bound w <= runs ticks -> run_at m = Returned true)
  /\ (forall h resp,
         run_at h = InStream [] None resp -> no_calls resp ->
         exec w userMessage instructions [Run; Run] h = final_flush h)
  /\ (forall h,
         run_at h = InFollowUp [] None ->
         step w userMessage instructions Run h = final_flush h).
Proof.
  intros m.
  assert (Ht : throttle_kept m).
  { apply exec_invariant; [intros; now apply throttle_kept_step|].
    apply throttle_kept_construct. }
  assert (Hf : final_update_kept m).
  { apply exec_invariant; [intros; now apply final_update_kept_step|].
    apply final_update_kept_construct. }
  split; [apply Ht | split; [|split; [|split; [|split]]]].
  - unfold final_update_kept in Hf.
    destruct (run_at m) as [ | | | | | | | | | | | | [|] ];
      try (rewrite Hf; simpl; lia); try exact Hf;
      destruct Hf as [Hf _]; rewrite Hf; simpl; lia.
  - intros Hpc. unfold final_update_kept in Hf. now rewrite Hpc in Hf.
  - intros Hw Hruns. now apply calm_run_completes.
  - intros h resp Hpc Hresp. simpl. unfold resume at 2. rewrite Hpc.
    unfold resume. cbn [run_at goto].
    destruct resp as [[[|call rest]|]|e]; try contradiction; reflexivity.
  - intros h Hpc. simpl. unfold resume. now rewrite Hpc.
Qed.

Lemma throttle_and_final_update_witness :
  let m := exec Sample.plain "What's the weather?" "Be concise"
             (repeat Run 14) (construct Sample.msg) in
  let h := exec Sample.plain "What's the weather?" "Be concise"
             (repeat Run 5) (construct Sample.msg) in
  run_at m = Returned true
  /\ final_flushes (trace m) = ["Sunny today"]
  /\ update_times (trace m) = [5000%Z]
  /\ exec Sample.plain "What's the weather?" "Be concise" [Run; Run] h
     = final_flush h.
Proof.
  intros m h.
  pose proof (throttle_and_final_update Sample.plain "What's the weather?"
                "Be concise" Sample.msg (repeat Run 14)) as H.
  cbv zeta in H. destruct H as (_ & _ & Hfinal & Hcomplete & Hflush & _).
  assert (Hc : calm Sample.plain) by (vm_compute; tauto).
  assert (Hr : run_bound Sample.plain <= runs (repeat Run 14))
    by (vm_compute; repeat constructor).
  specialize (Hcomplete Hc Hr). specialize (Hfinal Hcomplete).
  split; [exact Hcomplete | split; [|split]]; [|reflexivity|].
  - destruct Hfinal as [Hfinal _]. unfold m. rewrite Hfinal. reflexivity.
  - apply (Hflush h (Fulfilled None)); [reflexivity | exact I].
Defined.

(** ** A search that throws (lines 70-90) *)

(** C6: when the awaited search of a [web_search] call rejects, the result
    recorded for that call is the JSON text of an object whose only field
    "error" is "failed to call tool"; the error handler is not entered and
    no ERROR signal is sent: the tool loop goes on with the next call. And
    whatever the searches do, when no other call of [run] fails, [run]
    completes: no ERROR signal, the final update with the whole text
    directly before CLEAR, and the handler disposed once. *)
Theorem search_failure_is_absorbed
    (w : world) (userMessage instructions : string) :
  (forall (m : relay) (call : FunctionCall) (i : nat) (rest : list FunctionCall)
          (results : list FunctionResult) (e : Error),
      run_at m = AwaitSearch call i rest results ->
      search w i = Rejected e ->
      let m' := step w userMessage instructions Run m in
      m' = tool_loop (S i) rest
             (results ++
                [ {| result_name := name call;
                     result_response :=
                       "{" ++ dquote ++ "error" ++ dquote ++ ":"
                       ++ dquote ++ "failed to call tool" ++ dquote ++ "}" |} ])
             m
      /\ (forall e', run_at m' <> AwaitErrorEvent e')
      /\ count is_error_signal (trace m') = count is_error_signal (trace m))
  /\ (forall (msg : MessageResponse) (ticks : list tick),
         calm w -> run_bound w <= runs ticks ->
         let m := exec w userMessage instructions ticks (construct msg) in
         run_at m = Returned true
         /\ count is_error_signal (trace m) = 0
         /\ final_flushes (trace m) = [message_text m]
         /\ flushed_and_cleared m
         /\ is_done m = true
         /\ count is_onDispose (trace m) = 1).
Proof.
  split.
  - intros m call i rest results e Hpc Hsearch m'.
    assert (Hm' : m' = tool_loop (S i) rest
                         (results ++
                            [ {| result_name := name call;
                                 result_response := failed_to_call_tool |} ]) m).
    { subst m'. simpl. unfold resume. now rewrite Hpc, Hsearch. }
    split; [exact Hm' | rewrite Hm'].
    match goal with |- context [tool_loop ?j ?c ?r ?x] =>
      destruct (tool_loop_cases c j r x) as [-> | (c' & j' & rest' & -> & _)]
    end.
    + unfold after_tools. destruct (results ++ _)%list; cbn -[count];
        rewrite ?count_snoc; cbn -[count]; split; try lia; discriminate.
    + cbn -[count]. rewrite count_snoc. cbn -[count]. split; [discriminate | lia].
  - intros msg ticks Hw Hruns m.
    pose proof (calm_run_completes w userMessage instructions msg ticks Hw Hruns)
      as Hpc.
    fold m in Hpc.
    assert (Hk : calm_kept m).
    { apply exec_invariant; [intros; now apply calm_kept_step|].
      apply calm_kept_construct. }
    assert (Hf : final_update_kept m).
    { apply exec_invariant; [intros; now apply final_update_kept_step|].
      apply final_update_kept_construct. }
    assert (Hd : disposed_once m).
    { apply exec_invariant; [intros; now apply disposed_once_step|].
      apply disposed_once_construct. }
    unfold final_update_kept in Hf. rewrite Hpc in Hf.
    destruct Hf as [Hf Hfc]. destruct Hk as [_ Hk].
    destruct Hd as (Hd1 & _ & Hd3). pose proof (Hd3 true Hpc) as Hdone.
    rewrite Hdone in Hd1. auto 10.
Qed.

Lemma search_failure_is_absorbed_witness :
  let m := exec Sample.failing_search "foo?" "Be concise" (repeat Run 6)
             (construct Sample.msg) in
  let m' := exec Sample.failing_search "foo?" "Be concise" (repeat Run 15)
              (construct Sample.msg) in
  prompts (trace (step Sample.failing_search "foo?" "Be concise" Run m))
  = [ fullPrompt "foo?" "Be concise";
      "Function: web_search" ++ newline ++ "Result: {" ++ dquote ++ "error"
      ++ dquote ++ ":" ++ dquote ++ "failed to call tool" ++ dquote ++ "}" ]
  /\ run_at m' = Returned true
  /\ final_flushes (trace m') = ["Sunny today"]
  /\ count is_onDispose (trace m') = 1.
Proof.
  intros m m'.
  pose proof (search_failure_is_absorbed Sample.failing_search "foo?" "Be concise")
    as [Hstep Hrun].
  split.
  - destruct (Hstep m {| name := "web_search"; query := "foo" |} 0 [] []
                Sample.boom eq_refl eq_refl) as [Hm _].
    cbv zeta in Hm. rewrite Hm. reflexivity.
  - assert (Hc : calm Sample.failing_search) by (vm_compute; tauto).
    assert (Hr : run_bound Sample.failing_search <= runs (repeat Run 15))
      by (vm_compute; repeat constructor).
    destruct (Hrun Sample.msg (repeat Run 15) Hc Hr)
      as (H1 & _ & H3 & _ & _ & H6).
    fold m' in H1, H3, H6.
    split; [exact H1 | split; [|exact H6]].
    rewrite H3. reflexivity.
Defined.

(** The payloads that [performWebSearch] itself makes up are fulfilled
    results: none of them is a rejection, and [run] passes them on as they
    are. *)
Lemma performWebSearch_body_payloads :
  performWebSearch_body no_api_key
  = "{" ++ dquote ++ "error" ++ dquote ++ ":" ++ dquote
    ++ "Web search is not available. API key not configured." ++ dquote ++ "}"
  /\ performWebSearch_body (fetch_throws None)
     = "{" ++ dquote ++ "error" ++ dquote ++ ":" ++ dquote
       ++ "An exception occurred during the search." ++ dquote ++ ","
       ++ dquote ++ "message" ++ dquote ++ ":" ++ dquote ++ "Unknown error"
       ++ dquote ++ "}"
  /\ performWebSearch_body (fetch_not_ok 401 ("denied" ++ newline))
     = "{" ++ dquote ++ "error" ++ dquote ++ ":" ++ dquote
       ++ "Search failed with status: 401" ++ dquote ++ ","
       ++ dquote ++ "details" ++ dquote ++ ":" ++ dquote ++ "denied"
       ++ backslash ++ "n" ++ dquote ++ "}"
  /\ performWebSearch_body (fetch_ok Sample.answer_bar) = Sample.answer_bar.
Proof. repeat split; reflexivity. Qed.

(** ** After [dispose] (lines 39-42, 59-129, 140-147) *)

(** Once [is_done] is set, no tick changes a field of the handler. *)
Lemma fields_frozen_after_dispose
    (w : world) (um ins : string) (t : tick) (m : relay) :
  is_done m = true ->
  let m' := step w um ins t m in
  is_done m' = true
  /\ message_text m' = message_text m
  /\ chunk_counter m' = chunk_counter m
  /\ last_update_time m' = last_update_time m.
Proof.
  intros Hdone m'. subst m'. tick_cases.
  all: cbn in *; try congruence; auto.
Qed.

(** C1 fails on the code. A stop event for the target message arrives
    after the first fragment, and its handler disposes; [run] leaves the
    loop at the next fragment, and then still sends the final update and a
    second CLEAR signal. When the response lists a [web_search] call, [run]
    still sends the EXTERNAL_SOURCES signal, makes the search and sends the
    follow-up prompt as well, all after [dispose]. *)
Theorem calls_after_dispose :
  after_dispose
    (trace (exec Sample.plain "What's the weather?" "Be concise"
              [Run; Run; Run; Run; Sample.stop_m1; StopSent (Fulfilled tt);
               Run; Run; Run]
              (construct Sample.msg)))
  = [ partialUpdateMessage None "m1" [("text", "Sun")];
      sendEvent ai_indicator_clear "messaging:c1" "m1" ]
  /\ after_dispose
       (trace (exec Sample.searching "foo?" "Be concise"
                 [Run; Run; Sample.stop_m1; StopSent (Fulfilled tt);
                  Run; Run; Run; Run; Run; Run; Run; Run]
                 (construct Sample.msg)))
     = [ sendEvent (ai_indicator_update AI_STATE_EXTERNAL_SOURCES)
           "messaging:c1" "m1";
         performWebSearch "foo";
         sendMessageStream
           ("Function: web_search" ++ newline ++ "Result: " ++ Sample.answer_bar);
         partialUpdateMessage None "m1" [("text", "")];
         sendEvent ai_indicator_clear "messaging:c1" "m1" ].
Proof. split; vm_compute; reflexivity. Qed.

(** * Further properties of the handler *)

(** ** Stop events for other messages (lines 149-152) *)

Lemma message_step (w : world) (um ins : string) (t : tick) (m : relay) :
  message (step w um ins t m) = message m.
Proof. tick_cases; reflexivity. Qed.

(** Stop events that name another message (or none) can be struck from
    an execution: the handler ends in the same state, with the same calls
    made, as if they had never been delivered. *)
Theorem foreign_stops_do_not_interfere
    (w : world) (userMessage instructions : string) (ticks : list tick) :
  forall m,
    exec w userMessage instructions ticks m
    = exec w userMessage instructions
        (filter (fun t => negb (foreign_stop (id (message m)) t)) ticks) m.
Proof.
  induction ticks as [|t ticks IH]; intros m; [reflexivity|].
  cbn [filter].
  destruct (foreign_stop (id (message m)) t) eqn:Hforeign; cbn [negb].
  - assert (Hskip : step w userMessage instructions t m = m).
    { destruct t as [ | event | ack ]; try discriminate Hforeign.
      simpl. unfold handleStopGenerating. simpl in Hforeign.
      rewrite Hforeign. now rewrite orb_true_r. }
    simpl. rewrite Hskip. apply IH.
  - simpl. rewrite IH. now rewrite message_step.
Qed.

(** ** After [dispose] and after [run] *)

(** Once [is_done] is set, no execution changes the accumulated text, the
    chunk counter or the time of the last update, and [is_done] stays
    set. *)
Theorem done_handler_keeps_its_fields
    (w : world) (userMessage instructions : string) (ticks : list tick) :
  forall m,
    is_done m = true ->
    let m' := exec w userMessage instructions ticks m in
    is_done m' = true
    /\ message_text m' = message_text m
    /\ chunk_counter m' = chunk_counter m
    /\ last_update_time m' = last_update_time m.
Proof.
  induction ticks as [|t ticks IH]; intros m Hdone; [now repeat split|].
  destruct (fields_frozen_after_dispose w userMessage instructions t m Hdone)
    as (H1 & H2 & H3 & H4).
  destruct (IH _ H1) as (I1 & I2 & I3 & I4).
  simpl. repeat split; congruence.
Qed.

Lemma done_handler_keeps_its_fields_witness :
  let m := exec Sample.plain "Hi" "Be concise"
             [Run; Run; Run; Run; Sample.stop_m1; StopSent (Fulfilled tt)]
             (construct Sample.msg) in
  message_text
    (exec Sample.plain "Hi" "Be concise" [Run; Run; Run; Run] m) = "Sun"
  /\ chunk_counter
       (exec Sample.plain "Hi" "Be concise" [Run; Run; Run; Run] m) = 1%Z.
Proof.
  intros m.
  destruct (done_handler_keeps_its_fields Sample.plain "Hi" "Be concise"
              [Run; Run; Run; Run] m eq_refl) as (_ & Htext & Hcount & _).
  split; [rewrite Htext | rewrite Hcount]; reflexivity.
Defined.

Lemma returned_is_final (w : world) (um ins : string) (t : tick) (m : relay)
    (c : bool) :
  is_done m = true -> run_at m = Returned c ->
  let m' := step w um ins t m in
  trace m' = trace m /\ is_done m' = true /\ run_at m' = Returned c.
Proof.
  intros Hdone Hpc m'. subst m'.
  destruct t as [ | event | ack ]; simpl.
  - unfold resume. rewrite Hpc. auto.
  - unfold handleStopGenerating. rewrite Hdone. auto.
  - unfold handleStopGenerating_resume, dispose.
    destruct (stops_pending m); [auto|].
    destruct ack; cbn; rewrite ?Hdone; auto.
Qed.

(** Once [run] has returned the handler makes no further call, whatever
    is delivered to it afterwards. *)
Theorem nothing_after_return
    (w : world) (userMessage instructions : string) (msg : MessageResponse)
    (ticks more : list tick) (isCompleted : bool) :
  run_at (exec w userMessage instructions ticks (construct msg))
  = Returned isCompleted ->
  trace (exec w userMessage instructions (ticks ++ more) (construct msg))
  = trace (exec w userMessage instructions ticks (construct msg))
  /\ run_at (exec w userMessage instructions (ticks ++ more) (construct msg))
     = Returned isCompleted.
Proof.
  intros Hpc. rewrite exec_app.
  set (m := exec w userMessage instructions ticks (construct msg)) in *.
  assert (Hinv : disposed_once m).
  { apply exec_invariant; [intros; now apply disposed_once_step|].
    apply disposed_once_construct. }
  destruct Hinv as (_ & _ & Hret). pose proof (Hret _ Hpc) as Hdone.
  clearbody m. revert m Hpc Hdone Hret.
  induction more as [|t more IH]; intros m Hpc Hdone _; [now split|].
  destruct (returned_is_final w userMessage instructions t m isCompleted
              Hdone Hpc) as (Htr & Hd & Hp).
  simpl. destruct (IH _ Hp Hd (fun _ _ => Hd)) as [I1 I2].
  split; congruence.
Qed.

Lemma nothing_after_return_witness :
  trace (exec Sample.plain "Hi" "Be concise"
           (repeat Run 8 ++ [Sample.stop_m1; StopSent (Fulfilled tt); Run])
           (construct Sample.msg))
  = trace (exec Sample.plain "Hi" "Be concise" (repeat Run 8)
             (construct Sample.msg)).
Proof.
  exact (proj1 (nothing_after_return Sample.plain "Hi" "Be concise" Sample.msg
                  (repeat Run 8) [Sample.stop_m1; StopSent (Fulfilled tt); Run]
                  true eq_refl)).
Defined.

(** ** The accumulated text (lines 44-55, 104-115) *)

Lemma text_step (w : world) (um ins : string) (t : tick) (m : relay) :
  let m' := step w um ins t m in
  (exists suffix, message_text m' = message_text m ++ suffix)
  /\ (chunk_counter m <= chunk_counter m')%Z.
Proof.
  intros m'. subst m'. tick_cases.
  all: cbn -[Z.add].
  all: split; [|lia].
  all: first [ now exists ""; rewrite append_empty_r | now eexists ].
Qed.

(** The accumulated text only grows at its end, and the chunk counter
    never decreases. *)
Theorem text_only_grows
    (w : world) (userMessage instructions : string) (ticks : list tick) :
  forall m,
    let m' := exec w userMessage instructions ticks m in
    (exists suffix, message_text m' = message_text m ++ suffix)
    /\ (chunk_counter m <= chunk_counter m')%Z.
Proof.
  induction ticks as [|t ticks IH]; intros m.
  - split; [exists ""; now rewrite append_empty_r | cbn; lia].
  - destruct (text_step w userMessage instructions t m) as [[s1 H1] H2].
    destruct (IH (step w userMessage instructions t m)) as [[s2 I1] I2].
    cbn zeta in *. simpl. split; [|lia].
    exists (s1 ++ s2). now rewrite I1, H1, append_assoc.
Qed.

(** ** Whom the calls address (lines 23, 30-35, 49-51, 62-67, 121-129,
       156-160, 168-179) *)

Lemma addressed_grows (msg : MessageResponse) (accumulated more : string)
    (e : effect) :
  addressed msg accumulated e -> addressed msg (accumulated ++ more) e.
Proof.
  destruct e as [ | | | | at_time target set | | ]; try exact (fun H => H).
  destruct set as [|[field value] [|second set]]; try exact (fun H => H).
  intros (Htarget & Hfield & rest & Hrest). repeat split; try assumption.
  exists (rest ++ more). now rewrite Hrest, append_assoc.
Qed.

Lemma addressed_kept_step (w : world) (um ins : string) (t : tick) (m : relay) :
  addressed_kept m -> addressed_kept (step w um ins t m).
Proof.
  intros Hk. tick_cases.
  all: unfold addressed_kept in *.
  all: cbn [trace message message_text emit goto set_is_done set_message_text
            set_chunk_counter set_last_update_time set_stops_pending] in *.
  all: repeat (apply Forall_app; split).
  all: try exact Hk.
  all: try (eapply Forall_impl; [|exact Hk]; intros e; apply addressed_grows).
  all: constructor; [|constructor].
  all: cbn; repeat split.
  all: now exists ""; rewrite append_empty_r.
Qed.

(** Every event the handler sends carries the channel and the id of its
    own message, every partial update targets that message, and every
    update that sets the text alone (throttled or final) carries a prefix of
    the text accumulated since. *)
Theorem calls_address_own_message
    (w : world) (userMessage instructions : string) (msg : MessageResponse)
    (ticks : list tick) :
  let m := exec w userMessage instructions ticks (construct msg) in
  message m = msg
  /\ Forall (addressed msg (message_text m)) (trace m).
Proof.
  intros m.
  assert (Hmsg : message m = msg).
  { apply (exec_invariant w userMessage instructions (fun h => message h = msg));
      [|reflexivity].
    intros t h Hh. now rewrite message_step. }
  split; [exact Hmsg|]. rewrite <- Hmsg.
  apply (exec_invariant w userMessage instructions addressed_kept).
  - intros t h. apply addressed_kept_step.
  - repeat constructor.
Qed.

(** ** How often the signals are sent (lines 19, 30-35, 62-67, 168-173) *)

Lemma signals_kept_step (w : world) (um ins : string) (t : tick) (m : relay) :
  signals_kept m -> signals_kept (step w um ins t m).
Proof.
  intros Hk. tick_cases.
  all: unfold signals_kept in *.
  all: cbn -[count] in *.
  all: use_equations.
  all: try match goal with
         | |- context [match run_at ?m with _ => _ end] =>
             destruct (run_at m) as [ | | | | | | | | | | | | [|] ]
         end.
  all: cbn -[count] in *.
  all: rewrite ?count_snoc.
  all: cbn -[count] in *.
  all: destruct Hk as (H1 & H2 & H3 & H4).
  all: repeat split; try lia.
  exact H4.
Qed.

(** The stop listener is registered once. Of its own signals [run] sends
    GENERATING exactly once, as soon as it is called, and EXTERNAL_SOURCES
    and ERROR at most once each; a run that completes has sent no ERROR
    signal. *)
Theorem status_signals_at_most_once
    (w : world) (userMessage instructions : string) (msg : MessageResponse)
    (ticks : list tick) :
  let m := exec w userMessage instructions ticks (construct msg) in
  count is_on_stop (trace m) = 1
  /\ count is_generating (trace m)
     = match run_at m with NotStarted => 0 | _ => 1 end
  /\ count is_external_sources (trace m) <= 1
  /\ count is_error_signal (trace m) <= 1
  /\ (run_at m = Returned true -> count is_error_signal (trace m) = 0).
Proof.
  intros m.
  assert (Hk : signals_kept m).
  { apply exec_invariant; [intros; now apply signals_kept_step|].
    now repeat split. }
  destruct Hk as (H1 & H2 & H3 & H4).
  split; [exact H1|].
  destruct (run_at m) as [ | | | | | | | | | | | | [|] ];
    repeat split; try lia; try discriminate; auto.
Qed.

Lemma status_signals_at_most_once_witness :
  count is_error_signal
    (trace (exec Sample.plain "Hi" "Be concise" (repeat Run 8)
              (construct Sample.msg))) = 0.
Proof.
  apply (status_signals_at_most_once Sample.plain "Hi" "Be concise" Sample.msg
           (repeat Run 8)).
  reflexivity.
Defined.

(** ** The chunk counter (lines 45-55, 105-115) *)

Lemma length_append (a b : string) :
  String.length (a ++ b) = String.length a + String.length b.
Proof. induction a as [|x a IH]; simpl; [reflexivity | now rewrite IH]. Qed.

Lemma counter_kept_step (w : world) (um ins : string) (t : tick) (m : relay) :
  counter_kept m -> counter_kept (step w um ins t m).
Proof.
  intros Hk. tick_cases.
  all: unfold counter_kept in *.
  all: cbn -[update_times Z.add Z.of_nat String.length] in *.
  all: rewrite ?update_times_snoc.
  all: cbn -[update_times Z.add Z.of_nat String.length] in *.
  all: rewrite ?app_nil_r, ?length_app, ?length_append.
  all: try exact Hk.
  all: match goal with
       | H : String.eqb ?s "" = false |- _ =>
           destruct s; [discriminate H|]
       end.
  all: cbn [List.length String.length].
  all: lia.
Qed.

(** The chunk counter counts fragments with a text: it is never less than
    the number of throttled updates sent and never more than the length of
    the accumulated text; in particular no throttled update is sent while
    the counter is zero, and the counter is zero while the text is empty. *)
Theorem counter_bounds
    (w : world) (userMessage instructions : string) (msg : MessageResponse)
    (ticks : list tick) :
  let m := exec w userMessage instructions ticks (construct msg) in
  (Z.of_nat (List.length (update_times (trace m))) <= chunk_counter m)%Z
  /\ (chunk_counter m <= Z.of_nat (String.length (message_text m)))%Z.
Proof.
  intros m.
  apply (exec_invariant w userMessage instructions counter_kept).
  - intros t h. apply counter_kept_step.
  - split; cbn; lia.
Qed.

(** ** What disposes the handler (lines 135-137, 161, 180) *)

Lemma exec_invariant_on (w : world) (um ins : string) (ok : tick -> bool)
    (P : relay -> Prop) :
  (forall t m, ok t = true -> P m -> P (step w um ins t m)) ->
  forall ticks m, forallb ok ticks = true -> P m -> P (exec w um ins ticks m).
Proof.
  intros Hstep ticks. induction ticks as [|t ticks IH]; intros m Hok Hm.
  - exact Hm.
  - simpl in Hok. apply andb_true_iff in Hok as [Ht Hok].
    simpl. apply IH; [exact Hok|]. now apply Hstep.
Qed.

Lemma undisposed_step (w : world) (um ins : string) (t : tick) (m : relay) :
  negb (acknowledged_stop t) = true ->
  undisposed m -> undisposed (step w um ins t m).
Proof.
  intros Hok Hk. revert Hok. tick_cases.
  all: unfold undisposed in *.
  all: cbn in *.
  all: intros Hok Hdone; try discriminate.
  all: try (now eexists).
  all: try (destruct (Hk Hdone) as [? ?]; congruence).
  all: try (now apply Hk).
Qed.

(** As long as no stop handler has had its CLEAR signal acknowledged, the
    handler is disposed exactly when [run] has returned: a stop request
    whose signal fails to send does not end the generation. *)
Theorem dispose_needs_acknowledged_stop_or_return
    (w : world) (userMessage instructions : string) (msg : MessageResponse)
    (ticks : list tick) :
  forallb (fun t => negb (acknowledged_stop t)) ticks = true ->
  let m := exec w userMessage instructions ticks (construct msg) in
  is_done m = true <-> exists isCompleted, run_at m = Returned isCompleted.
Proof.
  intros Hok m. split.
  - apply (exec_invariant_on w userMessage instructions
             (fun t => negb (acknowledged_stop t)) undisposed);
      [intros t h; apply undisposed_step | exact Hok | discriminate].
  - intros [c Hc].
    assert (Hinv : disposed_once m).
    { apply exec_invariant; [intros; now apply disposed_once_step|].
      apply disposed_once_construct. }
    destruct Hinv as (_ & _ & Hret). now apply (Hret c).
Qed.

Lemma dispose_needs_acknowledged_stop_or_return_witness :
  is_done (exec Sample.plain "Hi" "Be concise"
             [Run; Run; Run; Sample.stop_m1; StopSent (Rejected Sample.boom);
              Run; Run]
             (construct Sample.msg)) = true
  <-> exists isCompleted,
        run_at (exec Sample.plain "Hi" "Be concise"
                  [Run; Run; Run; Sample.stop_m1; StopSent (Rejected Sample.boom);
                   Run; Run]
                  (construct Sample.msg)) = Returned isCompleted.
Proof.
  exact (dispose_needs_acknowledged_stop_or_return Sample.plain "Hi" "Be concise"
           Sample.msg
           [Run; Run; Run; Sample.stop_m1; StopSent (Rejected Sample.boom);
            Run; Run] eq_refl).
Defined.

(** ** The tool loop, counted (lines 69-97) *)

(** The loop stops at its first [web_search] call if there is one. *)
Lemma tool_loop_outcome (calls : list FunctionCall) :
  forall (i : nat) (results : list FunctionResult) (m : relay),
    (searches_in calls = 0
     /\ tool_loop i calls results m = after_tools results m)
    \/ exists call j rest,
         tool_loop i calls results m
         = goto (AwaitSearch call j rest results)
             (emit (performWebSearch (query call)) m)
         /\ searches_in calls = S (searches_in rest).
Proof.
  unfold searches_in, is_web_search.
  induction calls as [|call calls IH]; intros i results m; simpl.
  - now left.
  - destruct (String.eqb (name call) "web_search").
    + right. exists call, i, calls. split; reflexivity.
    + apply IH.
Qed.

Ltac split_tick_counting :=
  unfold step, resume, handleStopGenerating, handleStopGenerating_resume,
    handleError, handleError_update, handleError_dispose, finally, dispose,
    final_flush, consume;
  repeat match goal with
    | |- context [tool_loop ?i ?c ?r ?x] =>
        let H := fresh "Hloop" in
        let Hn := fresh "Hsearches" in
        destruct (tool_loop_outcome c i r x) as [[Hn H] | (? & ? & ? & H & Hn)];
        rewrite H; clear H
    | |- context [after_tools ?r ?x] =>
        unfold after_tools; destruct r eqn:?
    | |- context [match ?x with _ => _ end] => destruct x eqn:?
    end.

Ltac tick_cases_counting :=
  match goal with
  | |- context [step ?w ?um ?ins ?t ?m] =>
      let m' := fresh "m'" in
      let E := fresh "E" in
      remember (step w um ins t m) as m' eqn:E; revert E;
      destruct t; split_tick_counting; intros ->
  end.

Ltac no_results :=
  match goal with
  | H : (_ ++ [_])%list = [] |- _ =>
      exfalso; apply app_eq_nil in H; destruct H; discriminate
  end.

Lemma round_trip_kept_step (w : world) (um ins : string) (t : tick) (m : relay) :
  round_trip_kept w m -> round_trip_kept w (step w um ins t m).
Proof.
  intros Hk. tick_cases_counting.
  all: try no_results.
  all: unfold round_trip_kept in *.
  all: cbn -[count prompts searches_in world_calls] in *.
  all: use_equations.
  all: try match goal with
         | |- context [match run_at ?m with _ => _ end] =>
             destruct (run_at m) as [ | | | | | | | | | | | | [|] ]
         end.
  all: cbn -[count prompts searches_in world_calls] in *.
  all: rewrite ?count_snoc, ?prompts_snoc, ?length_app.
  all: cbn -[count prompts searches_in world_calls] in *.
  all: repeat match goal with H : _ /\ _ |- _ => destruct H end.
  all: try match goal with
         | H : ?c = world_calls ?w |- _ => rewrite <- H in *
         end.
  all: change (searches_in []) with 0 in *.
  all: try match goal with
         | |- context [match ?n with O => _ | S _ => _ end] => destruct n eqn:?
         end.
  all: try match goal with
         | H : context [match ?n with O => _ | S _ => _ end] |- _ => destruct n
         end.
  all: repeat split; try lia; try assumption; try reflexivity.
  unfold world_calls. now rewrite Heqs.
Qed.

(** However the execution goes, [run] sends at most two prompts to the
    model session and never makes more searches than the response has
    [web_search] calls. When it completes it has made exactly one search
    per [web_search] call, and it has sent a follow-up prompt exactly when
    there was such a call: one round trip of tools, not more. *)
Theorem single_tool_round_trip
    (w : world) (userMessage instructions : string) (msg : MessageResponse)
    (ticks : list tick) :
  let m := exec w userMessage instructions ticks (construct msg) in
  let total := searches_in (world_calls w) in
  List.length (prompts (trace m)) <= 2
  /\ count is_search (trace m) <= total
  /\ (run_at m = Returned true ->
      count is_search (trace m) = total
      /\ List.length (prompts (trace m)) = match total with O => 1 | S _ => 2 end).
Proof.
  intros m total.
  assert (Hk : round_trip_kept w m).
  { apply exec_invariant; [intros; now apply round_trip_kept_step|].
    now split. }
  unfold round_trip_kept in Hk. fold total in Hk.
  destruct (run_at m) as [ | | | | | | | | | | | | [|] ];
    cbv zeta in Hk;
    repeat match goal with H : _ /\ _ |- _ => destruct H end;
    repeat split; try lia; try discriminate; try assumption;
    destruct total; lia.
Qed.

Lemma single_tool_round_trip_witness :
  let m := exec Sample.searching "foo?" "Be concise" (repeat Run 15)
             (construct Sample.msg) in
  count is_search (trace m) = 1 /\ List.length (prompts (trace m)) = 2.
Proof.
  apply (single_tool_round_trip Sample.searching "foo?" "Be concise" Sample.msg
           (repeat Run 15)).
  reflexivity.
Defined.


(** ** The text that is delivered (lines 39-56, 99-116, 120-123) *)

Lemma stream_text_app (a b : list Chunk) :
  stream_text (a ++ b) = stream_text a ++ stream_text b.
Proof.
  induction a as [|c a IH]; simpl; [reflexivity|].
  destruct (text c); [now rewrite IH, append_assoc | exact IH].
Qed.

Lemma counted_chunks_app (a b : list Chunk) :
  counted_chunks (a ++ b) = (counted_chunks a + counted_chunks b)%Z.
Proof.
  induction a as [|c a IH]; cbn [counted_chunks app]; [reflexivity|].
  destruct (text c) as [s|]; [|exact IH].
  destruct (String.eqb s ""); rewrite IH; lia.
Qed.

Lemma chunks_read_without_search (w : world) :
  searches_in (world_calls w) = 0 ->
  stream_text (chunks_read w) = stream_text (first_chunks w)
  /\ counted_chunks (chunks_read w) = counted_chunks (first_chunks w).
Proof.
  intros H. unfold chunks_read. rewrite H, app_nil_r. now split.
Qed.

Lemma chunks_read_with_search (w : world) :
  searches_in (world_calls w) <> 0 ->
  stream_text (chunks_read w)
  = stream_text (first_chunks w) ++ stream_text (followup_chunks w)
  /\ counted_chunks (chunks_read w)
     = (counted_chunks (first_chunks w) + counted_chunks (followup_chunks w))%Z.
Proof.
  intros H. unfold chunks_read.
  destruct (searches_in (world_calls w)); [contradiction|].
  now rewrite stream_text_app, counted_chunks_app.
Qed.

Lemma text_kept_step (w : world) (um ins : string) (t : tick) (m : relay) :
  negb (acknowledged_stop t) = true ->
  undisposed m -> text_kept w m -> text_kept w (step w um ins t m).
Proof.
  intros Hok Hu Hk. revert Hok. tick_cases_counting.
  all: intros Hok.
  all: try no_results.
  all: try discriminate Hok.
  all: unfold text_kept, undisposed in *.
  all: cbn -[stream_text counted_chunks chunks_read searches_in world_calls
             Z.add] in *.
  all: use_equations.
  all: try match goal with
         | |- context [match run_at ?m with _ => _ end] =>
             destruct (run_at m) as [ | | | | | | | | | | | | [|] ]
         end.
  all: cbn -[chunks_read searches_in world_calls Z.add] in *.
  all: use_equations.
  all: cbn -[chunks_read searches_in world_calls Z.add] in *.
  all: try exact I.
  all: try exact Hk.
  all: try (destruct Hu as [? ?]; [reflexivity | discriminate]).
  all: repeat match goal with H : _ /\ _ |- _ => destruct H end.
  all: try match goal with
         | H : (?a =? "") = true |- _ => apply String.eqb_eq in H; subst a
         end.
  all: try match goal with
         | H : [] = world_calls ?w |- context [chunks_read ?w] =>
             destruct (chunks_read_without_search w) as [-> ->];
             [now rewrite <- H|]
         | H : searches_in ?c = 0, H' : ?c = world_calls ?w
           |- context [chunks_read ?w] =>
             destruct (chunks_read_without_search w) as [-> ->];
             [now rewrite <- H'|]
         | H : searches_in (world_calls ?w) <> 0 |- context [chunks_read ?w] =>
             destruct (chunks_read_with_search w H) as [-> ->]
         | H : searches_in ?c = S _, H' : ?c = world_calls ?w |- _ =>
             rewrite H' in H
         end.
  all: unfold first_chunks, followup_chunks, world_calls in *.
  all: repeat match goal with
         | H : first_result _ = _ |- _ => rewrite H in *
         | H : followup_result _ = _ |- _ => rewrite H in *
         end.
  all: cbn [stream_text counted_chunks String.append] in *.
  all: rewrite ?append_assoc, ?append_empty_r in *.
  all: repeat split; try lia; try congruence; try assumption.
  now rewrite H.
Qed.

Lemma undisturbed_step (w : world) (um ins : string) (t : tick) (m : relay) :
  negb (acknowledged_stop t) = true ->
  undisturbed w m -> undisturbed w (step w um ins t m).
Proof.
  intros Hok [Hu Hk]. split.
  - now apply undisposed_step.
  - now apply text_kept_step.
Qed.

(** When no call of [run] fails and no stop handler gets its CLEAR signal
    acknowledged, [run] completes with every fragment delivered: the
    accumulated text is the concatenation, in order, of the texts of the
    first stream and, if a search was made, of the follow-up stream; the
    chunk counter is the number of fragments with a text; and the final
    update carries exactly that text. *)
Theorem full_text_is_delivered
    (w : world) (userMessage instructions : string) (msg : MessageResponse)
    (ticks : list tick) :
  calm w ->
  forallb (fun t => negb (acknowledged_stop t)) ticks = true ->
  run_bound w <= runs ticks ->
  let m := exec w userMessage instructions ticks (construct msg) in
  run_at m = Returned true
  /\ message_text m = stream_text (chunks_read w)
  /\ chunk_counter m = counted_chunks (chunks_read w)
  /\ final_flushes (trace m) = [stream_text (chunks_read w)].
Proof.
  intros Hw Hok Hruns m.
  pose proof (calm_run_completes w userMessage instructions msg ticks Hw Hruns)
    as Hpc.
  fold m in Hpc.
  assert (Hk : undisturbed w m).
  { apply (exec_invariant_on w userMessage instructions
             (fun t => negb (acknowledged_stop t)) (undisturbed w));
      [intros t h; apply undisturbed_step | exact Hok |].
    split; [discriminate | now split]. }
  assert (Hf : final_update_kept m).
  { apply exec_invariant; [intros; now apply final_update_kept_step|].
    apply final_update_kept_construct. }
  destruct Hk as [_ Hk]. unfold text_kept in Hk. rewrite Hpc in Hk.
  unfold final_update_kept in Hf. rewrite Hpc in Hf.
  destruct Hk as [Htext Hcount]. destruct Hf as [Hf _].
  repeat split; try assumption. now rewrite Hf, Htext.
Qed.

Lemma full_text_is_delivered_witness :
  let m := exec Sample.searching "foo?" "Be concise"
             (repeat Run 6
              ++ [Sample.stop_m1; StopSent (Rejected Sample.boom)]
              ++ repeat Run 9)
             (construct Sample.msg) in
  run_at m = Returned true
  /\ message_text m = "Sunny today"
  /\ chunk_counter m = 2%Z
  /\ final_flushes (trace m) = ["Sunny today"].
Proof.
  apply (full_text_is_delivered Sample.searching "foo?" "Be concise" Sample.msg
           (repeat Run 6
            ++ [Sample.stop_m1; StopSent (Rejected Sample.boom)]
            ++ repeat Run 9)).
  - vm_compute. tauto.
  - reflexivity.
  - vm_compute. repeat constructor.
Defined.


(** ** The last write (lines 120-123, 174-179) *)

Lemma last_update_snoc (tr : list effect) (e : effect) :
  last_update (tr ++ [e]) = if is_update e then Some e else last_update tr.
Proof.
  unfold last_update. rewrite filter_app. cbn [filter].
  destruct (is_update e).
  - rewrite map_app. cbn [map]. apply last_last.
  - now rewrite app_nil_r.
Qed.

Lemma last_write_kept_step (w : world) (um ins : string) (t : tick) (m : relay) :
  last_write_kept m -> last_write_kept (step w um ins t m).
Proof.
  intros Hk. tick_cases.
  all: unfold last_write_kept, last_is_error_update in *.
  all: cbn -[count last_update] in *.
  all: use_equations.
  all: try match goal with
         | |- context [match run_at ?m with _ => _ end] =>
             destruct (run_at m) as [ | | | | | | | | | | | | [|] ]
         end.
  all: cbn -[count last_update] in *.
  all: rewrite ?count_snoc, ?last_update_snoc.
  all: cbn -[count last_update] in *.
  all: rewrite ?Nat.add_0_r.
  all: try exact Hk.
  all: try lia.
  all: try tauto.
  all: try (split; [lia | first [reflexivity | eexists; split; reflexivity]]).
  all: try (left; lia).
Qed.

Lemma last_write_kept_construct (msg : MessageResponse) :
  last_write_kept (construct msg).
Proof. reflexivity. Qed.

(** The last write wins as the handler intends it: when [run] completes,
    the partial update made last is the final one, with the whole
    accumulated text; and when the error handler has written the error
    into the message, which it does at most once, that update is the last
    one the handler ever makes. *)
Theorem last_write_wins
    (w : world) (userMessage instructions : string) (msg : MessageResponse)
    (ticks : list tick) :
  let m := exec w userMessage instructions ticks (construct msg) in
  count is_error_update (trace m) <= 1
  /\ (run_at m = Returned true ->
      last_update (trace m)
      = Some (partialUpdateMessage None (id msg) [("text", message_text m)]))
  /\ (count is_error_update (trace m) = 1 ->
      exists e, last_update (trace m) = Some e /\ is_error_update e = true).
Proof.
  intros m.
  assert (Hk : last_write_kept m).
  { apply exec_invariant; [intros; now apply last_write_kept_step|].
    apply last_write_kept_construct. }
  assert (Hmsg : message m = msg).
  { apply (exec_invariant w userMessage instructions (fun h => message h = msg));
      [|reflexivity].
    intros t h Hh. now rewrite message_step. }
  unfold last_write_kept, last_is_error_update in Hk. rewrite Hmsg in Hk.
  destruct (run_at m) as [ | | | | | | | | | | | | [|] ];
    repeat match goal with
      | H : _ /\ _ |- _ => destruct H
      | H : _ \/ _ |- _ => destruct H
      end;
    repeat split; try lia; try discriminate;
    intros; try lia; assumption.
Qed.

Lemma last_write_wins_witness :
  last_update
    (trace (exec Sample.plain "Hi" "Be concise" (repeat Run 8)
              (construct Sample.msg)))
  = Some (partialUpdateMessage None "m1" [("text", "Sunny today")])
  /\ exists e,
       last_update
         (trace (exec Sample.broken "Hi" "Be concise" (repeat Run 8)
                   (construct Sample.msg))) = Some e
       /\ is_error_update e = true.
Proof.
  split.
  - apply (last_write_wins Sample.plain "Hi" "Be concise" Sample.msg
             (repeat Run 8)).
    reflexivity.
  - apply (last_write_wins Sample.broken "Hi" "Be concise" Sample.msg
             (repeat Run 8)).
    reflexivity.
Defined.

(** ** How soon a disposed handler returns (lines 40-42, 100-102) *)

Lemma segments_done_handleError (w : world) (e : Error) (m : relay) :
  is_done m = true ->
  segments_left_done w (run_at (handleError e m)) = 0.
Proof. intros H. unfold handleError, finally. now rewrite H. Qed.

Lemma segments_done_tool_loop (w : world) (calls : list FunctionCall) (i : nat)
    (results : list FunctionResult) (m : relay) :
  segments_left_done w (run_at (tool_loop i calls results m))
  <= 3 + List.length calls.
Proof.
  destruct (tool_loop_cases calls i results m) as [-> | (c & j & rest & -> & Hlen)].
  - destruct results; simpl; lia.
  - simpl. lia.
Qed.

Lemma resume_progress_done (w : world) (um ins : string) (m : relay) :
  is_done m = true ->
  (forall c, run_at m <> Returned c) ->
  segments_left_done w (run_at (resume w um ins m))
  < segments_left_done w (run_at m).
Proof.
  intros Hdone Hrun. unfold resume.
  destruct (run_at m) as [ | p | | rest fail resp | resp | calls
                         | call i rest results | | rest fail | | e | | c ] eqn:Hpc;
    rewrite ?Hdone.
  - simpl. lia.
  - destruct (generating_ack w);
      [simpl; lia | rewrite segments_done_handleError by exact Hdone; simpl; lia].
  - cbn [segments_left_done]. unfold world_calls.
    destruct (first_result w) as [r | e].
    + cbn [run_at goto segments_left_done]. unfold calls_of, calls_in.
      destruct (response r) as [[l|]|]; simpl; lia.
    + rewrite segments_done_handleError by exact Hdone. lia.
  - destruct rest as [|chunk rest].
    + destruct fail as [e|];
        [rewrite segments_done_handleError by exact Hdone; simpl; lia
        | simpl; lia].
    + simpl. lia.
  - destruct resp as [[[|call rest]|] | e]; try (simpl; lia).
    rewrite segments_done_handleError by exact Hdone. simpl. lia.
  - destruct (external_ack w) as [u | e].
    + pose proof (segments_done_tool_loop w calls 0 [] m). simpl. lia.
    + rewrite segments_done_handleError by exact Hdone. simpl. lia.
  - match goal with |- context [tool_loop ?i ?c ?r ?m] =>
      pose proof (segments_done_tool_loop w c i r m) end.
    simpl. lia.
  - destruct (followup_result w) as [s | e].
    + simpl. lia.
    + rewrite segments_done_handleError by exact Hdone. simpl. lia.
  - destruct rest as [|chunk rest].
    + destruct fail as [e|];
        [rewrite segments_done_handleError by exact Hdone; simpl; lia
        | simpl; lia].
    + simpl. lia.
  - destruct (clear_ack w) as [u | e].
    + simpl. lia.
    + rewrite segments_done_handleError by exact Hdone. simpl. lia.
  - destruct (error_ack w); simpl; lia.
  - destruct (error_update_ack w); simpl; lia.
  - now elim (Hrun c).
Qed.

(** Once the handler is disposed, [run] reads no further fragment: it
    leaves a stream loop at the next fragment, and it returns within a
    number of segments that depends on the tool calls still to be served
    but not on the fragments left in the streams. *)
Theorem disposed_run_returns_soon
    (w : world) (userMessage instructions : string) (ticks : list tick) :
  forall m,
    is_done m = true ->
    segments_left_done w (run_at m) <= runs ticks ->
    exists isCompleted,
      run_at (exec w userMessage instructions ticks m) = Returned isCompleted.
Proof.
  induction ticks as [|t ticks IH]; intros m Hdone Hm.
  - unfold runs in Hm. simpl in *.
    destruct (run_at m); simpl in Hm; try lia. now eexists.
  - pose proof (fields_frozen_after_dispose w userMessage instructions t m Hdone)
      as [Hdone' _].
    simpl. apply IH; [exact Hdone'|]. destruct t as [ | event | ack ].
    + unfold runs in Hm. simpl in Hm. fold (runs ticks) in Hm.
      destruct (run_at m) as [ | | | | | | | | | | | | c ] eqn:Hpc;
        try (assert (Hn : forall c, run_at m <> Returned c)
               by (intros c; rewrite Hpc; discriminate);
             pose proof (resume_progress_done w userMessage instructions m
                           Hdone Hn) as Hp;
             rewrite Hpc in Hp; simpl; lia).
      simpl. unfold resume. rewrite Hpc. rewrite Hpc. simpl. lia.
    + rewrite run_at_stop by discriminate. exact Hm.
    + rewrite run_at_stop by discriminate. exact Hm.
Qed.

Lemma disposed_run_returns_soon_witness :
  exists isCompleted,
    run_at (exec Sample.plain "Hi" "Be concise" (repeat Run 7)
              (exec Sample.plain "Hi" "Be concise"
                 [Run; Run; Run; Sample.stop_m1; StopSent (Fulfilled tt)]
                 (construct Sample.msg)))
    = Returned isCompleted.
Proof.
  apply (disposed_run_returns_soon Sample.plain "Hi" "Be concise" (repeat Run 7)).
  - reflexivity.
  - vm_compute. repeat constructor.
Defined.


(** ** The time of the last update (lines 47-53, 107-113) *)

Lemma last_update_time_step (w : world) (um ins : string) (t : tick) (m : relay) :
  let m' := step w um ins t m in
  last_update_time m' = last_update_time m
  \/ (last_update_time m' > last_update_time m + 1000)%Z.
Proof.
  intros m'. subst m'. tick_cases.
  all: cbn -[Z.gtb Z.sub Z.add].
  all: try (now left).
  all: right.
  all: match goal with
       | H : (_ >? _)%Z = true |- _ =>
           apply Z.gtb_lt in H; cbn [last_update_time set_message_text] in H
       end.
  all: lia.
Qed.

(** [last_update_time] is the clock reading at the latest throttled
    update, and 0 before the first one; along any execution it stays as it
    is or moves forward by more than 1000 ms. *)
Theorem last_update_time_moves_forward
    (w : world) (userMessage instructions : string) (ticks : list tick) :
  (forall msg,
      let m := exec w userMessage instructions ticks (construct msg) in
      last_update_time m = latest 0 (update_times (trace m)))
  /\ (forall m,
         let m' := exec w userMessage instructions ticks m in
         last_update_time m' = last_update_time m
         \/ (last_update_time m' > last_update_time m + 1000)%Z).
Proof.
  split.
  - intros msg m.
    assert (Hk : throttle_kept m).
    { apply exec_invariant; [intros; now apply throttle_kept_step|].
      apply throttle_kept_construct. }
    symmetry. apply Hk.
  - induction ticks as [|t ticks IH]; intros m; [now left|].
    destruct (last_update_time_step w userMessage instructions t m) as [H | H];
      destruct (IH (step w userMessage instructions t m)) as [I | I];
      cbn zeta in *; simpl; [left | right | right | right]; lia.
Qed.

(** ** The payloads of the search tool (lines 84-87, 186-190, 210-217,
       223-232) *)

(** Whatever the status, the body text and the exception are, the three
    payloads that [performWebSearch] makes up and the payload that [run]
    puts in for a search that throws are four different texts: the model
    session can tell the causes apart. *)
Theorem search_payloads_tell_causes
    (thrown : option string) (status : Z) (errorText : string) :
  let no_key := performWebSearch_body no_api_key in
  let exception := performWebSearch_body (fetch_throws thrown) in
  let not_ok := performWebSearch_body (fetch_not_ok status errorText) in
  no_key <> exception /\ no_key <> not_ok /\ exception <> not_ok
  /\ no_key <> failed_to_call_tool
  /\ exception <> failed_to_call_tool
  /\ not_ok <> failed_to_call_tool.
Proof.
  cbn -[NilZero.string_of_int Z.to_int].
  repeat split; discriminate.
Qed.

(** ** The order of the calls (lines 30-37, 62-74) *)

Lemma preceded_from_snoc (before after : effect -> bool) (tr : list effect)
    (e : effect) :
  forall seen,
    preceded_from before after seen tr ->
    (after e = true -> seen || existsb before tr = true) ->
    preceded_from before after seen (tr ++ [e]).
Proof.
  induction tr as [|x tr IH]; intros seen Htr He; cbn in *.
  - split; [|exact I]. intros H. specialize (He H). now rewrite orb_false_r in He.
  - destruct Htr as [Hx Htr]. split; [exact Hx|].
    apply IH; [exact Htr|]. intros H. specialize (He H).
    now rewrite <- orb_assoc.
Qed.

Lemma counted_exists (p : effect -> bool) (tr : list effect) :
  count p tr = 1 -> existsb p tr = true.
Proof.
  unfold count. induction tr as [|x tr IH]; cbn; [discriminate|].
  destruct (p x); [reflexivity | exact IH].
Qed.

Lemma order_kept_step (w : world) (um ins : string) (t : tick) (m : relay) :
  order_kept m -> order_kept (step w um ins t m).
Proof.
  intros (Hg & Hx & Hs). split; [|split]; [| |now apply signals_kept_step].
  - revert Hg. pose proof Hs as (_ & Hgen & _).
    tick_cases.
    all: cbn -[count] in *.
    all: use_equations.
    all: cbn -[count] in *.
    all: intros Hg.
    all: repeat (apply preceded_from_snoc; [|try (intros H; discriminate H)]).
    all: try exact Hg.
    all: intros _; now apply counted_exists.
  - revert Hx. pose proof Hs as (_ & _ & Hext & _).
    tick_cases.
    all: cbn -[count] in *.
    all: use_equations.
    all: cbn -[count] in *.
    all: intros Hx.
    all: repeat (apply preceded_from_snoc; [|try (intros H; discriminate H)]).
    all: try exact Hx.
    all: intros _; now apply counted_exists.
Qed.

(** No prompt is sent to the model session before the GENERATING signal,
    and no search is made before the EXTERNAL_SOURCES signal: in every
    trace each prompt has a GENERATING signal before it and each search an
    EXTERNAL_SOURCES signal. *)
Theorem signals_come_first
    (w : world) (userMessage instructions : string) (msg : MessageResponse)
    (ticks : list tick) :
  let m := exec w userMessage instructions ticks (construct msg) in
  preceded is_generating is_model_prompt (trace m)
  /\ preceded is_external_sources is_search (trace m).
Proof.
  intros m.
  assert (Hk : order_kept m).
  { apply exec_invariant; [intros; now apply order_kept_step|].
    repeat split; intros H; discriminate H. }
  split; apply Hk.
Qed.
